(** * daggr canvas component: graph canvas engine

    A shallow embedding of the logic of
    [daggr/canvas-component/frontend/Index.svelte]: the snapshot ingestion
    (staleness guard), the ancestor computation, the execution-run tracker
    and the viewport controller, with the properties the specification
    states about them.

    Conventions of the embedding.
    - JavaScript strings are [string]; [===] on strings is decidable equality.
    - Plain objects used as dictionaries ([Record<string, T>]) are [gmap string T];
      a missing key is [undefined], modelled by [None].  Keys are node names and
      run ids; they are assumed not to collide with properties inherited from
      [Object.prototype].
    - [Set<string>] that is only tested and extended is a [gset string]; the
      ancestor set, whose insertion order is observable through [Array.from],
      is a duplicate-free [list string] in insertion order.
    - Numbers that are coordinates or scales are exact rationals [Q]; array
      lengths and indices are [nat].
    - Optional fields ([?:], [?.]) are [option]. *)

From Stdlib Require Import Ascii QArith Qminmax Qabs Lqa.
From stdpp Require Import gmap strings list fin_maps.

#[local] Set Warnings "-clear-no-such-hyp".

(** ** Strings *)

(** [s.replace(/c/g, d)] for a one-character pattern [c]. *)
Fixpoint replaceAll (c d : ascii) (s : string) : string :=
  match s with
  | EmptyString => EmptyString
  | String a rest =>
      String (if Ascii.eqb a c then d else a) (replaceAll c d rest)
  end.

(** [current.replace(/ /g, '_').replace(/-/g, '_')] *)
Definition normalizeName (s : string) : string :=
  replaceAll "-"%char "_"%char (replaceAll " "%char "_"%char s).

(** JavaScript truthiness of an optional string: [undefined], [null] and the
    empty string are falsy. *)
Definition truthy (o : option string) : option string :=
  match o with
  | Some EmptyString => None
  | other => other
  end.

(** ** Data model (the TypeScript interfaces) *)

Module Port.
Record t := mk { name : string; history_count : option nat }.
End Port.

Module GradioComponentData.
Record t := mk {
  component : string;
  type : string;
  port_name : string;
  props : list (string * string);
  value : option string          (* [None] is [null] / [undefined] *)
}.
End GradioComponentData.

Module GraphNode.
Record t := mk {
  id : string;
  name : string;
  type : string;
  inputs : list Port.t;
  outputs : list string;
  input_components : option (list GradioComponentData.t);
  output_components : option (list GradioComponentData.t);
  x : Q;
  y : Q;
  status : string;
  is_output_node : bool;
  is_input_node : bool
}.
End GraphNode.

Module GraphEdge.
Record t := mk {
  id : string;
  from_node : string;
  from_port : string;
  to_node : string;
  to_port : string;
  is_scattered : bool;
  is_gathered : bool
}.
End GraphEdge.

(** A result snapshot is the copied list of output components. *)
Abbreviation ResultSnapshot := (list GradioComponentData.t).

Module CanvasData.
Record t := mk {
  name : string;
  nodes : option (list GraphNode.t);
  edges : option (list GraphEdge.t);
  inputs : option (gmap string (gmap string string));
  item_list_values : option (gmap string (gmap nat (gmap string string)));
  run_to_node : option string;
  run_id : option string;
  completed_node : option string;
  selected_results : option (gmap string nat)
}.
End CanvasData.

(** ** Snapshot ingestion: the [nodes] and [edges] derived values

    [lastValidNodes] / [lastValidEdges] are plain component variables; the
    derived value is recomputed for every inbound [gradio.props.value].  Each
    function returns the derived list and the new held value. *)

Definition deriveNodes (value : option CanvasData.t) (lastValidNodes : list GraphNode.t)
  : list GraphNode.t * list GraphNode.t :=
  match value ≫= CanvasData.nodes with
  | Some newNodes =>
      if (0 <? length newNodes)%nat then (newNodes, newNodes)
      else (lastValidNodes, lastValidNodes)
  | None => (lastValidNodes, lastValidNodes)
  end.

Definition deriveEdges (value : option CanvasData.t) (lastValidEdges : list GraphEdge.t)
  : list GraphEdge.t * list GraphEdge.t :=
  match value ≫= CanvasData.edges with
  | Some newEdges =>
      if (0 <? length newEdges)%nat then (newEdges, newEdges)
      else (lastValidEdges, lastValidEdges)
  | None => (lastValidEdges, lastValidEdges)
  end.

(** ** Ancestors of a node: [getAncestors] *)

Section Ancestors.
Variable nodes : list GraphNode.t.
Variable edges : list GraphEdge.t.

(** [nodes.find(n => n.id === edge.from_node)] *)
Definition findSource (edge : GraphEdge.t) : option GraphNode.t :=
  List.find (λ n, bool_decide (GraphNode.id n = GraphEdge.from_node edge)) nodes.

(** Body of [for (const edge of edges)].  The state is the [ancestors] set in
    insertion order and the [toVisit] array kept top first: [push] is a cons
    and [pop] takes the head. *)
Definition visitEdge (current : string) (st : list string * list string)
    (edge : GraphEdge.t) : list string * list string :=
  let '(ancestors, toVisit) := st in
  if decide (GraphEdge.to_node edge = normalizeName current) then
    match findSource edge with
    | Some sourceNode =>
        if negb (GraphNode.is_input_node sourceNode)
           && negb (bool_decide (GraphNode.name sourceNode ∈ ancestors))
        then (ancestors ++ [GraphNode.name sourceNode],
              GraphNode.name sourceNode :: toVisit)
        else st
    | None => st
    end
  else st.

(** [while (toVisit.length > 0)]: one unit of fuel per iteration; [None]
    when the fuel runs out before the array is empty. *)
Fixpoint visitLoop (fuel : nat) (ancestors toVisit : list string)
  : option (list string) :=
  match toVisit with
  | [] => Some ancestors
  | current :: rest =>
      match fuel with
      | O => None
      | S fuel' =>
          let '(ancestors', toVisit') :=
            fold_left (visitEdge current) edges (ancestors, rest) in
          visitLoop fuel' ancestors' toVisit'
      end
  end.

(** [getAncestors(nodeName)].  Every iteration but the first pops a name that
    was added to [ancestors] exactly once, so one more iteration than there
    are nodes always suffices ([getAncestors_terminates] below). *)
Definition getAncestors (nodeName : string) : list string :=
  default [] (visitLoop (S (length nodes)) [] [nodeName]).

End Ancestors.

(** ** Execution run tracker *)

(** The tracker state of one canvas.  [globalProcessedSet] is the module-level
    set; [timers] lists the callbacks registered with [setTimeout] that have
    not fired yet, each one the [(runId, executedNodes)] it closes over. *)
Record Tracker := mkTracker {
  pendingRunIds : gmap string (list string);
  runIdToNodes : gmap string (list string);
  nodeResults : gmap string (list ResultSnapshot);
  selectedResultIndex : gmap string nat;
  globalProcessedSet : gset string;
  timers : list (string * list string)
}.

Definition initialTracker : Tracker :=
  mkTracker ∅ ∅ ∅ ∅ ∅ [].

(** [`${runId}:${completedNode}`] *)
Definition completionKey (runId completedNode : string) : string :=
  runId +:+ ":" +:+ completedNode.

(** [`${nodeName}_${Date.now()}_${Math.random().toString(36).slice(2)}`]: [now]
    is the decimal rendering of the clock and [rand] the base-36 digits of the
    random number, both supplied by the environment. *)
Definition mintRunId (nodeName now rand : string) : string :=
  nodeName +:+ "_" +:+ now +:+ "_" +:+ rand.

(** [c.value != null] *)
Definition hasValue (c : GradioComponentData.t) : bool :=
  match GradioComponentData.value c with Some _ => true | None => false end.

(** [data.nodes?.find(n => n.name === completedNode)] *)
Definition findCompleted (data : CanvasData.t) (completedNode : string)
  : option GraphNode.t :=
  CanvasData.nodes data ≫=
    List.find (λ n, bool_decide (GraphNode.name n = completedNode)).

(** The snapshot appended for a completion: [Some] exactly when the completed
    node is found, has a non-empty [output_components] and one of them carries
    a non-null value.  The snapshot copies every component. *)
Definition resultSnapshotOf (data : CanvasData.t) (completedNode : string)
  : option ResultSnapshot :=
  match findCompleted data completedNode with
  | Some node =>
      match GraphNode.output_components node with
      | Some comps =>
          if (0 <? length comps)%nat && existsb hasValue comps
          then Some (map (λ c, c) comps)
          else None
      | None => None
      end
  | None => None
  end.

(** The [$effect] that processes an incoming result, run on the current
    [gradio.props.value]. *)
Definition processCompletion (value : option CanvasData.t) (s : Tracker) : Tracker :=
  match value with
  | None => s
  | Some data =>
      match truthy (CanvasData.run_id data), truthy (CanvasData.completed_node data) with
      | Some runId, Some completedNode =>
          let completionKey' := completionKey runId completedNode in
          if decide (completionKey' ∈ globalProcessedSet s) then s
          else
            let processed := {[completionKey']} ∪ globalProcessedSet s in
            let pending :=
              match pendingRunIds s !! completedNode with
              | Some ids =>
                  <[completedNode := filter (λ id, id ≠ runId) ids]> (pendingRunIds s)
              | None => pendingRunIds s
              end in
            let '(runs, timers') :=
              match runIdToNodes s !! runId with
              | Some executedNodes =>
                  if forallb (λ n, bool_decide (completionKey runId n ∈ processed))
                       executedNodes
                  then (delete runId (runIdToNodes s),
                        timers s ++ [(runId, executedNodes)])
                  else (runIdToNodes s, timers s)
              | None => (runIdToNodes s, timers s)
              end in
            match resultSnapshotOf data completedNode with
            | Some resultSnapshot =>
                let results :=
                  default [] (nodeResults s !! completedNode) ++ [resultSnapshot] in
                mkTracker pending runs
                  (<[completedNode := results]> (nodeResults s))
                  (<[completedNode := (length results - 1)%nat]> (selectedResultIndex s))
                  processed timers'
            | None =>
                mkTracker pending runs (nodeResults s) (selectedResultIndex s)
                  processed timers'
            end
      | _, _ => s
      end
  end.

(** The oldest [setTimeout] callback fires: it deletes the keys of the run it
    closed over. *)
Definition fireTimer (s : Tracker) : Tracker :=
  match timers s with
  | [] => s
  | (runId, executedNodes) :: rest =>
      mkTracker (pendingRunIds s) (runIdToNodes s) (nodeResults s)
        (selectedResultIndex s)
        (globalProcessedSet s ∖ list_to_set (map (completionKey runId) executedNodes))
        rest
  end.

(** [!nodeResults[n] || nodeResults[n].length === 0] *)
Definition lacksResults (results : gmap string (list ResultSnapshot)) (n : string) : bool :=
  match results !! n with
  | Some l => (length l =? 0)%nat
  | None => true
  end.

(** Body of [for (const nodeToRun of nodesToRun)]. *)
Definition addPending (runId : string) (pending : gmap string (list string))
    (nodeToRun : string) : gmap string (list string) :=
  <[nodeToRun := default [] (pending !! nodeToRun) ++ [runId]]> pending.

(** The state [handleRunToNode] reads and writes besides the tracker. *)
Record Canvas := mkCanvas {
  value : option CanvasData.t;               (* gradio.props.value *)
  lastValidNodes : list GraphNode.t;
  lastValidEdges : list GraphEdge.t;
  inputValues : gmap string (gmap string string);
  tracker : Tracker
}.

Definition nodesOf (c : Canvas) : list GraphNode.t :=
  fst (deriveNodes (value c) (lastValidNodes c)).

Definition edgesOf (c : Canvas) : list GraphEdge.t :=
  fst (deriveEdges (value c) (lastValidEdges c)).

(** [nodesToExecute.filter(n => !nodeResults[n] || nodeResults[n].length === 0)]
    for [nodesToExecute = [...ancestors, nodeName]]. *)
Definition nodesToRunOf (c : Canvas) (nodeName : string) : list string :=
  List.filter (lacksResults (nodeResults (tracker c)))
    (getAncestors (nodesOf c) (edgesOf c) nodeName ++ [nodeName]).

(** How a call of an event handler ends: it returns, or an exception leaves
    it. *)
Inductive Outcome :=
  | Returned
  | Threw (error : string).

(** [handleRunToNode(e, nodeName)] with the run id minted for this call.
    Lines 392-407 do the bookkeeping of the run.  Without a current value the
    guard [if (gradio.props.value)] fails and the handler returns.  With one,
    the handler starts to build [newValue]; the property
    [item_list_values: { ...itemListValues }] reads [itemListValues], a name
    the component declares nowhere, so its evaluation throws a
    [ReferenceError] before [gradio.props.value] is assigned and before
    [gradio.dispatch("change", newValue)] is reached.  Either way the state
    keeps the bookkeeping and the value it had, and no command is
    dispatched. *)
Definition handleRunToNode (nodeName runId : string) (c : Canvas)
  : Canvas * Outcome :=
  let s := tracker c in
  let nodesToRun := nodesToRunOf c nodeName in
  let pending := fold_left (addPending runId) nodesToRun (pendingRunIds s) in
  let s' := mkTracker pending (<[runId := nodesToRun]> (runIdToNodes s))
              (nodeResults s) (selectedResultIndex s) (globalProcessedSet s) (timers s) in
  let '(nodes', lastNodes') := deriveNodes (value c) (lastValidNodes c) in
  let '(edges', lastEdges') := deriveEdges (value c) (lastValidEdges c) in
  match value c with
  | Some v =>
      (mkCanvas (Some v) lastNodes' lastEdges' (inputValues c) s',
       Threw "ReferenceError: itemListValues is not defined")
  | None =>
      (mkCanvas None lastNodes' lastEdges' (inputValues c) s', Returned)
  end.



(** [getResultCount(nodeName)] *)
Definition getResultCount (s : Tracker) (nodeName : string) : nat :=
  length (default [] (nodeResults s !! nodeName)).

(** [prevResult] and [nextResult] *)
Definition prevResult (nodeName : string) (s : Tracker) : Tracker :=
  let current := default 0%nat (selectedResultIndex s !! nodeName) in
  if (0 <? current)%nat
  then mkTracker (pendingRunIds s) (runIdToNodes s) (nodeResults s)
         (<[nodeName := (current - 1)%nat]> (selectedResultIndex s))
         (globalProcessedSet s) (timers s)
  else s.

Definition nextResult (nodeName : string) (s : Tracker) : Tracker :=
  let total := getResultCount s nodeName in
  let current := default 0%nat (selectedResultIndex s !! nodeName) in
  if (S current <? total)%nat
  then mkTracker (pendingRunIds s) (runIdToNodes s) (nodeResults s)
         (<[nodeName := (current + 1)%nat]> (selectedResultIndex s))
         (globalProcessedSet s) (timers s)
  else s.

(** [getSelectedResults(node)] and [getComponentsToRender(node)] *)
Definition getSelectedResults (s : Tracker) (node : GraphNode.t)
  : list GradioComponentData.t :=
  let fallback := default [] (GraphNode.output_components node) in
  match nodeResults s !! GraphNode.name node with
  | None => fallback
  | Some results =>
      if (length results =? 0)%nat then fallback
      else
        let idx := default (length results - 1)%nat
                     (selectedResultIndex s !! GraphNode.name node) in
        default fallback (results !! idx)
  end.

Definition getComponentsToRender (s : Tracker) (node : GraphNode.t)
  : list GradioComponentData.t :=
  match GraphNode.input_components node with
  | Some comps =>
      if GraphNode.is_input_node node && (0 <? length comps)%nat then comps
      else getSelectedResults s node
  | None => getSelectedResults s node
  end.

(** ** Layout constants and node height *)

Open Scope Q_scope.

Definition NODE_WIDTH : Q := 220.
Definition HEADER_HEIGHT : nat := 36.
Definition HEADER_BORDER : nat := 1.
Definition BODY_PADDING_TOP : nat := 8.
Definition PORT_ROW_HEIGHT : nat := 22.
Definition EMBEDDED_COMPONENT_HEIGHT : nat := 60.

(** [getNodeHeight(node)], a whole number of pixels. *)
Definition getNodeHeight (s : Tracker) (node : GraphNode.t) : nat :=
  let portRows :=
    Nat.max (Nat.max (length (GraphNode.inputs node)) (length (GraphNode.outputs node))) 1 in
  let componentsToRender := getComponentsToRender s node in
  let embeddedHeight := (length componentsToRender * EMBEDDED_COMPONENT_HEIGHT)%nat in
  (HEADER_HEIGHT + HEADER_BORDER + BODY_PADDING_TOP + portRows * PORT_ROW_HEIGHT
   + embeddedHeight + BODY_PADDING_TOP)%nat.

(** ** Viewport controller *)

Module Transform.
Record t := mk { x : Q; y : Q; scale : Q }.
End Transform.

(** The part of [getBoundingClientRect()] the component reads. *)
Module Rect.
Record t := mk { left : Q; top : Q; width : Q; height : Q }.
End Rect.

Definition initialTransform : Transform.t := Transform.mk 0 0 1.

(** The bounding-box accumulators start at [Infinity] / [-Infinity]; [None]
    stands for that initial value, which [Math.min] / [Math.max] replace by
    their other argument. *)
Definition accMin (acc : option Q) (v : Q) : option Q :=
  Some (match acc with Some a => Qmin a v | None => v end).

Definition accMax (acc : option Q) (v : Q) : option Q :=
  Some (match acc with Some a => Qmax a v | None => v end).

Module Bounds.
Record t := mk { minX : option Q; minY : option Q; maxX : option Q; maxY : option Q }.
End Bounds.

(** Body of the [for (const node of nodes)] loop of [zoomToFit]. *)
Definition growBounds (s : Tracker) (b : Bounds.t) (node : GraphNode.t) : Bounds.t :=
  let nodeHeight := inject_Z (Z.of_nat (getNodeHeight s node)) in
  Bounds.mk
    (accMin (Bounds.minX b) (GraphNode.x node))
    (accMin (Bounds.minY b) (GraphNode.y node))
    (accMax (Bounds.maxX b) (GraphNode.x node + NODE_WIDTH))
    (accMax (Bounds.maxY b) (GraphNode.y node + nodeHeight)).

Definition boundsOf (s : Tracker) (nodes : list GraphNode.t) : Bounds.t :=
  fold_left (growBounds s) nodes (Bounds.mk None None None None).

(** [zoomToFit()]: [canvasEl] is [None] until the element is bound. *)
Definition zoomToFit (s : Tracker) (nodes : list GraphNode.t) (canvasEl : option Rect.t)
    (transform : Transform.t) : Transform.t :=
  match nodes, canvasEl with
  | [], _ | _, None => transform
  | _ :: _, Some canvasRect =>
      let padding : Q := 40 in
      let canvasWidth := Rect.width canvasRect in
      let canvasHeight := Rect.height canvasRect in
      match boundsOf s nodes with
      | Bounds.mk (Some minX) (Some minY) (Some maxX) (Some maxY) =>
          let contentWidth := maxX - minX in
          let contentHeight := maxY - minY in
          let scaleX := (canvasWidth - padding * 2) / contentWidth in
          let scaleY := (canvasHeight - padding * 2) / contentHeight in
          let newScale := Qmin (Qmin scaleX scaleY) 1.5 in
          let centerX := (minX + maxX) / 2 in
          let centerY := (minY + maxY) / 2 in
          let newX := canvasWidth / 2 - centerX * newScale in
          let newY := canvasHeight / 2 - centerY * newScale in
          Transform.mk newX newY (Qmax 0.2 newScale)
      | _ => transform
      end
  end.

(** [zoomIn()] and [zoomOut()] *)
Definition zoomIn (transform : Transform.t) : Transform.t :=
  Transform.mk (Transform.x transform) (Transform.y transform)
    (Qmin 3 (Transform.scale transform * 1.2)).

Definition zoomOut (transform : Transform.t) : Transform.t :=
  Transform.mk (Transform.x transform) (Transform.y transform)
    (Qmax 0.2 (Transform.scale transform / 1.2)).

(** The fields of a wheel event the handler reads. *)
Module WheelEvent.
Record t := mk { clientX : Q; clientY : Q; deltaY : Q }.
End WheelEvent.

(** [e.deltaY > 0 ? 0.97 : 1.03] *)
Definition wheelDelta (e : WheelEvent.t) : Q :=
  if Qlt_le_dec 0 (WheelEvent.deltaY e) then 0.97 else 1.03.

(** [handleWheel(e)], with [rect] the bounding rectangle of the canvas. *)
Definition handleWheel (rect : Rect.t) (e : WheelEvent.t) (transform : Transform.t)
  : Transform.t :=
  let mouseX := WheelEvent.clientX e - Rect.left rect in
  let mouseY := WheelEvent.clientY e - Rect.top rect in
  let canvasX := (mouseX - Transform.x transform) / Transform.scale transform in
  let canvasY := (mouseY - Transform.y transform) / Transform.scale transform in
  let delta := wheelDelta e in
  let newScale := Qmax 0.2 (Qmin 3 (Transform.scale transform * delta)) in
  Transform.mk (mouseX - canvasX * newScale) (mouseY - canvasY * newScale) newScale.

(** Panning: [handleMouseDown] (on the canvas background with the main
    button), [handleMouseMove] and [handleMouseUp]. *)
Record Viewport := mkViewport {
  transform : Transform.t;
  isPanning : bool;
  startPan : Q * Q
}.

Definition initialViewport : Viewport := mkViewport initialTransform false (0, 0).

Definition handleMouseDown (button : Z) (onCanvas : bool) (clientX clientY : Q)
    (v : Viewport) : Viewport :=
  if (button =? 0)%Z && onCanvas
  then mkViewport (transform v) true
         (clientX - Transform.x (transform v), clientY - Transform.y (transform v))
  else v.

Definition handleMouseMove (clientX clientY : Q) (v : Viewport) : Viewport :=
  if isPanning v
  then mkViewport
         (Transform.mk (clientX - fst (startPan v)) (clientY - snd (startPan v))
            (Transform.scale (transform v)))
         true (startPan v)
  else v.

Definition handleMouseUp (v : Viewport) : Viewport :=
  mkViewport (transform v) false (startPan v).

(** The operations that write [transform]. *)
Inductive ViewportOp :=
  | OpWheel (rect : Rect.t) (e : WheelEvent.t)
  | OpZoomIn
  | OpZoomOut
  | OpZoomToFit (s : Tracker) (nodes : list GraphNode.t) (canvasEl : option Rect.t)
  | OpMouseDown (button : Z) (onCanvas : bool) (clientX clientY : Q)
  | OpMouseMove (clientX clientY : Q)
  | OpMouseUp.

Definition withTransform (f : Transform.t → Transform.t) (v : Viewport) : Viewport :=
  mkViewport (f (transform v)) (isPanning v) (startPan v).

Definition applyOp (v : Viewport) (op : ViewportOp) : Viewport :=
  match op with
  | OpWheel rect e => withTransform (handleWheel rect e) v
  | OpZoomIn => withTransform zoomIn v
  | OpZoomOut => withTransform zoomOut v
  | OpZoomToFit s nodes canvasEl => withTransform (zoomToFit s nodes canvasEl) v
  | OpMouseDown button onCanvas cx cy => handleMouseDown button onCanvas cx cy v
  | OpMouseMove cx cy => handleMouseMove cx cy v
  | OpMouseUp => handleMouseUp v
  end.

(** The point of the logical canvas drawn at screen position [(px, py)]
    (relative to the canvas element) under a transform. *)
Definition canvasPointAt (t : Transform.t) (px py : Q) : Q * Q :=
  ((px - Transform.x t) / Transform.scale t, (py - Transform.y t) / Transform.scale t).

Close Scope Q_scope.

(** ** Specification of the ancestor set *)

Section AncestorSpec.
Variable nodes : list GraphNode.t.
Variable edges : list GraphEdge.t.

(** One step backward: [m] is the name of the non-input node found by id at
    the [from_node] end of an edge whose [to_node] is the normalised name of
    [current]. *)
Definition parentOf (current m : string) : Prop :=
  ∃ edge sourceNode,
    edge ∈ edges
    ∧ GraphEdge.to_node edge = normalizeName current
    ∧ findSource nodes edge = Some sourceNode
    ∧ GraphNode.is_input_node sourceNode = false
    ∧ GraphNode.name sourceNode = m.

(** One or more steps backward from [n]. *)
Inductive ancestorOf (n : string) : string → Prop :=
  | ancestor_parent m : parentOf n m → ancestorOf n m
  | ancestor_step m m' : ancestorOf n m → parentOf m m' → ancestorOf n m'.

(** The same step as a function of the edge. *)
Definition followBack (current : string) (edge : GraphEdge.t) : option string :=
  if decide (GraphEdge.to_node edge = normalizeName current) then
    match findSource nodes edge with
    | Some sourceNode =>
        if GraphNode.is_input_node sourceNode then None
        else Some (GraphNode.name sourceNode)
    | None => None
    end
  else None.

(** The reverse breadth-first search as the specification words it: start at
    a node, follow every edge whose [to_node] is the current node backward to
    its [from_node], collect every node met that is not an input node, and
    go on from the nodes newly collected, oldest first, until none is new.
    The current node is compared with [to_node] as it stands; the node met is
    the one whose id is [from_node]. *)
Definition nodeWithId (id : string) : option GraphNode.t :=
  List.find (λ node, bool_decide (GraphNode.id node = id)) nodes.

Definition specEdge (current : string) (st : list string * list string)
    (edge : GraphEdge.t) : list string * list string :=
  let '(found, queue) := st in
  if decide (GraphEdge.to_node edge = current) then
    match nodeWithId (GraphEdge.from_node edge) with
    | Some met =>
        if GraphNode.is_input_node met then st
        else if decide (GraphNode.name met ∈ found) then st
        else (found ++ [GraphNode.name met], queue ++ [GraphEdge.from_node edge])
    | None => st
    end
  else st.

Fixpoint specLoop (fuel : nat) (found queue : list string) : option (list string) :=
  match queue with
  | [] => Some found
  | current :: rest =>
      match fuel with
      | O => None
      | S fuel' =>
          let '(found', queue') := fold_left (specEdge current) edges (found, rest) in
          specLoop fuel' found' queue'
      end
  end.

Definition specAncestors (start : string) : list string :=
  default [] (specLoop (S (length nodes)) [] [start]).

(** The traversals are instances of one scheme: take the head of the work
    list and let [round] extend the found set and the rest of the list. *)
Section Drain.
Variable round : string → list string → list string → list string * list string.

Fixpoint drain (fuel : nat) (found work : list string) : option (list string) :=
  match work with
  | [] => Some found
  | current :: rest =>
      match fuel with
      | O => None
      | S fuel' =>
          let '(found', work') := round current found rest in
          drain fuel' found' work'
      end
  end.
End Drain.

Definition dfsRound (current : string) (found rest : list string) :=
  fold_left (visitEdge nodes current) edges (found, rest).

(** The program's step on a work list served oldest first: the link between
    the program, which pops the newest name, and the search of the
    specification. *)
Definition queueEdge (current : string) (st : list string * list string)
    (edge : GraphEdge.t) : list string * list string :=
  match followBack current edge with
  | Some m => if decide (m ∈ st.1) then st else (st.1 ++ [m], st.2 ++ [m])
  | None => st
  end.

Definition queueRound (current : string) (found rest : list string) :=
  fold_left (queueEdge current) edges (found, rest).

(** Every node's id is its name with spaces and hyphens replaced by
    underscores. *)
Definition idsAreNormalizedNames : Prop :=
  ∀ node, node ∈ nodes → GraphNode.id node = normalizeName (GraphNode.name node).

(** What a round has to guarantee. *)
Definition roundOk
    (round : string → list string → list string → list string * list string) : Prop :=
  ∀ current found rest,
    NoDup found →
    let '(found', work') := round current found rest in
    NoDup found'
    ∧ (∀ m, m ∈ found' ↔ m ∈ found ∨ parentOf current m)
    ∧ (∀ c, c ∈ work' ↔ c ∈ rest ∨ (c ∈ found' ∧ c ∉ found))
    ∧ length work' + length found = length rest + length found'.

(** The loop invariant for a traversal started at [n]. *)
Definition traversalInv (n : string) (found work : list string) : Prop :=
  NoDup found
  ∧ (∀ m, m ∈ found → ancestorOf n m)
  ∧ (∀ c, c ∈ work → c = n ∨ c ∈ found)
  ∧ (∀ a, a = n ∨ a ∈ found → a ∈ work ∨ ∀ m, parentOf a m → m ∈ found).

End AncestorSpec.

(** Delivering a list of snapshots, oldest first. *)
Definition deliver (ds : list CanvasData.t) (s : Tracker) : Tracker :=
  fold_left (λ s d, processCompletion (Some d) s) ds s.

(** A completion of [node] under run [runId] that carries a result. *)
Definition completionWithResult (node : string) (d : CanvasData.t) : Prop :=
  truthy (CanvasData.completed_node d) = Some node
  ∧ is_Some (truthy (CanvasData.run_id d))
  ∧ is_Some (resultSnapshotOf d node).

(** The pending queue of a node, empty when the node has no entry. *)
Definition pendingOf (s : Tracker) (m : string) : list string :=
  default [] (pendingRunIds s !! m).

(** A node has a recorded result: its history exists and is not empty. *)
Definition hasRecordedResult (s : Tracker) (m : string) : Prop :=
  ∃ results, nodeResults s !! m = Some results ∧ results ≠ [].

(** A space or a hyphen becomes an underscore, any other character stays. *)
Definition separatorToUnderscore (a : ascii) : ascii :=
  if decide (a = " "%char ∨ a = "-"%char) then "_"%char else a.

(** The nodes named by the recognised notifications among [ds]. *)
Definition completedNodes (ds : list CanvasData.t) : list string :=
  omap (λ d, truthy (CanvasData.completed_node d)) ds.

(** ** Sample graphs *)

Module Sample.
Definition node (id name : string) (is_input : bool) : GraphNode.t :=
  GraphNode.mk id name "FN" [Port.mk "in" None] ["out"] None None 0 0 "pending"
    false is_input.

Definition edge (from_node to_node : string) : GraphEdge.t :=
  GraphEdge.mk (from_node +:+ "->" +:+ to_node) from_node "out" to_node "in"
    false false.

(** A completion notification for [completedNode] under [runId] whose node
    carries one output with value [out]. *)
Definition completion (runId completedNode out : string) : CanvasData.t :=
  CanvasData.mk "graph"
    (Some [GraphNode.mk completedNode completedNode "FN" [] ["out"] None
             (Some [GradioComponentData.mk "textbox" "text" "out" [] (Some out)])
             0 0 "completed" true false])
    (Some []) None None None (Some runId) (Some completedNode) None.

(** The graph [A (input) → B → C]. *)
Definition chainNodes : list GraphNode.t :=
  [node "A" "A" true; node "B" "B" false; node "C" "C" false].
Definition chainEdges : list GraphEdge.t := [edge "A" "B"; edge "B" "C"].

Definition snapshot (nodes : list GraphNode.t) (edges : list GraphEdge.t) : CanvasData.t :=
  CanvasData.mk "graph" (Some nodes) (Some edges) None None None None None None.

Definition chainCanvas : Canvas :=
  mkCanvas (Some (snapshot chainNodes chainEdges)) chainNodes chainEdges ∅
    initialTracker.


(** The chain [A (input) → B → C] of a graph whose ids are lower-case and
    whose names are upper-case; the edges name ids. *)
Definition idChainNodes : list GraphNode.t :=
  [node "a" "A" true; node "b" "B" false; node "c" "C" false].
Definition idChainEdges : list GraphEdge.t := [edge "a" "b"; edge "b" "c"].

(** A graph whose names hold spaces and hyphens and whose ids are the names
    normalised. *)
Definition spacedNodes : list GraphNode.t :=
  [node "load_data" "load data" true; node "clean_up" "clean-up" false;
   node "my_node_1" "my node-1" false].
Definition spacedEdges : list GraphEdge.t :=
  [edge "load_data" "clean_up"; edge "clean_up" "my_node_1"].

(** The node named ["my node-1"] with incoming edges that name it by its raw
    name and by another id, never by ["my_node_1"]. *)
Definition rawNameNodes : list GraphNode.t :=
  [node "n1" "my node-1" false; node "clean_up" "clean-up" false].
Definition rawNameEdges : list GraphEdge.t :=
  [edge "clean_up" "my node-1"; edge "clean_up" "n1"].

(** A canvas on that graph in which ["my node-1"] completed once under an
    earlier run. *)
Definition rawNameCanvasWithResult : Canvas :=
  mkCanvas None rawNameNodes rawNameEdges ∅
    (processCompletion (Some (completion "r0" "my node-1" "out")) initialTracker).

(** The node named ["my node-1"] has id ["n1"]; another node has the id
    ["my_node_1"], and an edge enters that one. *)
Definition collidingNodes : list GraphNode.t :=
  [node "n1" "my node-1" false; node "my_node_1" "other" false;
   node "clean_up" "clean-up" false].
Definition collidingEdges : list GraphEdge.t :=
  [edge "clean_up" "n1"; edge "clean_up" "my_node_1"].

End Sample.

(** A node with another id. *)
Definition withId (id : string) (n : GraphNode.t) : GraphNode.t :=
  GraphNode.mk id (GraphNode.name n) (GraphNode.type n) (GraphNode.inputs n)
    (GraphNode.outputs n) (GraphNode.input_components n)
    (GraphNode.output_components n) (GraphNode.x n) (GraphNode.y n)
    (GraphNode.status n) (GraphNode.is_output_node n) (GraphNode.is_input_node n).

(** ** Notions used to state the properties of the viewport and of ingestion *)

(** The derived node list and the held list after a sequence of inbound
    values, oldest first. *)
Definition ingestNodes (lastValidNodes : list GraphNode.t)
    (values : list (option CanvasData.t)) : list GraphNode.t * list GraphNode.t :=
  fold_left (λ st v, deriveNodes v st.2) values (lastValidNodes, lastValidNodes).

Definition ingestEdges (lastValidEdges : list GraphEdge.t)
    (values : list (option CanvasData.t)) : list GraphEdge.t * list GraphEdge.t :=
  fold_left (λ st v, deriveEdges v st.2) values (lastValidEdges, lastValidEdges).

(** A value whose node (edge) list is absent or empty. *)
Definition lacksNodes (v : option CanvasData.t) : Prop :=
  v ≫= CanvasData.nodes = None ∨ v ≫= CanvasData.nodes = Some [].

Definition lacksEdges (v : option CanvasData.t) : Prop :=
  v ≫= CanvasData.edges = None ∨ v ≫= CanvasData.edges = Some [].

(** The scale lies in the permitted interval. *)
Definition scaleOk (t : Transform.t) : Prop :=
  (0.2 <= Transform.scale t)%Q ∧ (Transform.scale t <= 3)%Q.

(** [least f nodes m]: [m] is the least value of [f] over [nodes]; likewise
    [greatest]. *)
Definition least (f : GraphNode.t → Q) (nodes : list GraphNode.t) (m : Q) : Prop :=
  (∃ n, n ∈ nodes ∧ (f n == m)%Q) ∧ ∀ n, n ∈ nodes → (m <= f n)%Q.

Definition greatest (f : GraphNode.t → Q) (nodes : list GraphNode.t) (m : Q) : Prop :=
  (∃ n, n ∈ nodes ∧ (f n == m)%Q) ∧ ∀ n, n ∈ nodes → (f n <= m)%Q.

(** The union bounding box of the node rectangles: every rectangle is
    [NODE_WIDTH] wide and [getNodeHeight] high. *)
Definition boundingBox (s : Tracker) (nodes : list GraphNode.t)
    (minX minY maxX maxY : Q) : Prop :=
  least GraphNode.x nodes minX
  ∧ least GraphNode.y nodes minY
  ∧ greatest (λ n, GraphNode.x n + NODE_WIDTH)%Q nodes maxX
  ∧ greatest (λ n, GraphNode.y n + inject_Z (Z.of_nat (getNodeHeight s n)))%Q nodes maxY.

(** ** Entered values *)

(** [handleInputChange(nodeId, portName, value)], on the [inputValues] record. *)
Definition handleInputChange (nodeId portName value : string)
    (inputValues : gmap string (gmap string string)) : gmap string (gmap string string) :=
  <[nodeId := <[portName := value]> (default ∅ (inputValues !! nodeId))]> inputValues.

(** [getComponentValue(node, comp)]:
    [inputValues[node.id]?.[comp.port_name] ?? comp.value ?? ''] *)
Definition getComponentValue (inputValues : gmap string (gmap string string))
    (node : GraphNode.t) (comp : GradioComponentData.t) : string :=
  match inputValues !! GraphNode.id node ≫= (.!! GradioComponentData.port_name comp) with
  | Some entered => entered
  | None => default EmptyString (GradioComponentData.value comp)
  end.

(** ** Map items *)

Module MapItem.
Record t := mk {
  index : nat;
  preview : string;
  output : option string;
  is_audio_output : bool;
  status : option string
}.
End MapItem.

(** [toggleMapExpand(e, nodeName)], on the [expandedMapNodes] record. *)
Definition toggleMapExpand (nodeName : string) (expandedMapNodes : gmap string bool)
  : gmap string bool :=
  <[nodeName := negb (default false (expandedMapNodes !! nodeName))]> expandedMapNodes.

(** [getVisibleMapItems(node)]; [map_items] is the node's optional field of
    that name. *)
Definition getVisibleMapItems (expandedMapNodes : gmap string bool) (nodeName : string)
    (map_items : option (list MapItem.t)) : list MapItem.t :=
  let items := default [] map_items in
  if default false (expandedMapNodes !! nodeName) || (length items <=? 3)%nat
  then items
  else take 3 items.

(** ** Result selector of the template *)

(** [disabled={(selectedResultIndex[node.name] ?? 0) === 0}] *)
Definition prevDisabled (s : Tracker) (nodeName : string) : bool :=
  (default 0 (selectedResultIndex s !! nodeName) =? 0)%nat.

(** [disabled={(selectedResultIndex[node.name] ?? 0) >= getResultCount(node.name) - 1}] *)
Definition nextDisabled (s : Tracker) (nodeName : string) : bool :=
  (getResultCount s nodeName <=? S (default 0 (selectedResultIndex s !! nodeName)))%nat.

(** ** Node lookup, port rows and edge paths *)

(** The [nodeMap] derived value: [map.set(node.id, node)] for every node in
    order. *)
Definition nodeMapOf (nodes : list GraphNode.t) : gmap string GraphNode.t :=
  fold_left (λ map node, <[GraphNode.id node := node]> map) nodes ∅.

(** [l.findIndex(p)], [None] for [-1]; [l.indexOf(x)] is
    [findIndex] of equality with [x]. *)
Fixpoint findIndex {A} (p : A → bool) (l : list A) : option nat :=
  match l with
  | [] => None
  | a :: rest => if p a then Some 0 else S <$> findIndex p rest
  end.

Open Scope Q_scope.

(** [getPortY(portIndex)] *)
Definition getPortY (portIndex : nat) : Q :=
  inject_Z (Z.of_nat (HEADER_HEIGHT + HEADER_BORDER + BODY_PADDING_TOP
                      + portIndex * PORT_ROW_HEIGHT))
  + inject_Z (Z.of_nat PORT_ROW_HEIGHT) / 2.

(** An SVG path string is kept as the list of its commands, each with the
    numbers the template literal interpolates. *)
Inductive PathCommand :=
  | MoveTo (x y : Q)
  | CurveTo (x1 y1 x2 y2 x y : Q)
  | LineTo (x y : Q).

Module EdgePath.
Record t := mk {
  id : string;
  d : list PathCommand;
  is_scattered : bool;
  is_gathered : bool;
  forkPaths : option (list (list PathCommand))
}.
End EdgePath.

(** Body of the loop of [edgePaths]: [None] where the loop [continue]s. *)
Definition edgePathOf (nodeMap : gmap string GraphNode.t) (edge : GraphEdge.t)
  : option EdgePath.t :=
  match nodeMap !! GraphEdge.from_node edge, nodeMap !! GraphEdge.to_node edge with
  | Some fromNode, Some toNode =>
      match findIndex (λ o, bool_decide (o = GraphEdge.from_port edge))
              (GraphNode.outputs fromNode),
            findIndex (λ p, bool_decide (Port.name p = GraphEdge.to_port edge))
              (GraphNode.inputs toNode) with
      | Some fromPortIdx, Some toPortIdx =>
          let fromPortY := getPortY fromPortIdx in
          let toPortY := getPortY toPortIdx in
          let x1 := GraphNode.x fromNode + NODE_WIDTH in
          let y1 := GraphNode.y fromNode + fromPortY in
          let x2 := GraphNode.x toNode in
          let y2 := GraphNode.y toNode + toPortY in
          let dx := Qabs (x2 - x1) in
          let cp := Qmax (dx * 0.4) 50 in
          let is_scattered := GraphEdge.is_scattered edge in
          let is_gathered := GraphEdge.is_gathered edge in
          if is_scattered then
            let forkStart := x2 - 30 in
            let forkSpread := 8 in
            let d := [MoveTo x1 y1; CurveTo (x1 + cp) y1 (forkStart - 20) y2 forkStart y2] in
            let forkPaths :=
              [ [MoveTo forkStart y2; LineTo x2 (y2 - forkSpread)];
                [MoveTo forkStart y2; LineTo x2 y2];
                [MoveTo forkStart y2; LineTo x2 (y2 + forkSpread)] ] in
            Some (EdgePath.mk (GraphEdge.id edge) d is_scattered is_gathered (Some forkPaths))
          else if is_gathered then
            let forkEnd := x1 + 30 in
            let forkSpread := 8 in
            let forkPaths :=
              [ [MoveTo x1 (y1 - forkSpread); LineTo forkEnd y1];
                [MoveTo x1 y1; LineTo forkEnd y1];
                [MoveTo x1 (y1 + forkSpread); LineTo forkEnd y1] ] in
            let d := [MoveTo forkEnd y1; CurveTo (forkEnd + cp - 30) y1 (x2 - cp) y2 x2 y2] in
            Some (EdgePath.mk (GraphEdge.id edge) d is_scattered is_gathered (Some forkPaths))
          else
            let d := [MoveTo x1 y1; CurveTo (x1 + cp) y1 (x2 - cp) y2 x2 y2] in
            Some (EdgePath.mk (GraphEdge.id edge) d is_scattered is_gathered None)
      | _, _ => None
      end
  | _, _ => None
  end.

(** The [edgePaths] derived value. *)
Definition edgePaths (nodes : list GraphNode.t) (edges : list GraphEdge.t)
  : list EdgePath.t :=
  omap (edgePathOf (nodeMapOf nodes)) edges.

(** Where a path starts and where it ends. *)
Definition startPoint (path : list PathCommand) : option (Q * Q) :=
  match path with
  | MoveTo x y :: _ => Some (x, y)
  | _ => None
  end.

Definition endPoint (path : list PathCommand) : option (Q * Q) :=
  match last path with
  | Some (MoveTo x y) | Some (CurveTo _ _ _ _ x y) | Some (LineTo x y) => Some (x, y)
  | None => None
  end.

Close Scope Q_scope.

(** ** The component as a transition system *)

Definition initialCanvas : Canvas := mkCanvas None [] [] ∅ initialTracker.

Definition withTracker (f : Tracker → Tracker) (c : Canvas) : Canvas :=
  mkCanvas (value c) (lastValidNodes c) (lastValidEdges c) (inputValues c)
    (f (tracker c)).

(** A new [gradio.props.value] arrives: the derived node and edge lists are
    recomputed and the completion effect runs on it. *)
Definition receiveValue (v : option CanvasData.t) (c : Canvas) : Canvas :=
  mkCanvas v (deriveNodes v (lastValidNodes c)).2 (deriveEdges v (lastValidEdges c)).2
    (inputValues c) (processCompletion v (tracker c)).

(** The run button: the state [handleRunToNode] leaves, called with the run
    id it mints from the clock and the random source.  The handler writes no
    value, so no inbound value follows from the click itself. *)
Definition runToNode (nodeName now rand : string) (c : Canvas) : Canvas :=
  (handleRunToNode nodeName (mintRunId nodeName now rand) c).1.

Inductive CanvasEvent :=
  | EvValue (v : option CanvasData.t)
  | EvRunToNode (nodeName now rand : string)
  | EvTimer
  | EvPrevResult (nodeName : string)
  | EvNextResult (nodeName : string)
  | EvInputChange (nodeId portName entered : string)
  | EvItemListChange (nodeId : string) (itemIndex : nat) (fieldName entered : string).

Definition canvasStep (c : Canvas) (ev : CanvasEvent) : Canvas :=
  match ev with
  | EvValue v => receiveValue v c
  | EvRunToNode nodeName now rand => runToNode nodeName now rand c
  | EvTimer => withTracker fireTimer c
  | EvPrevResult nodeName => withTracker (prevResult nodeName) c
  | EvNextResult nodeName => withTracker (nextResult nodeName) c
  | EvInputChange nodeId portName entered =>
      mkCanvas (value c) (lastValidNodes c) (lastValidEdges c)
        (handleInputChange nodeId portName entered (inputValues c))
        (tracker c)
  | EvItemListChange nodeId itemIndex fieldName entered =>
      (* [handleItemListChange] reads the undeclared [itemListValues] in its
         first statement and throws before it writes anything *)
      c
  end.

(** The canvas after a sequence of events, oldest first. *)
Definition runEvents (events : list CanvasEvent) (c : Canvas) : Canvas :=
  fold_left canvasStep events c.

(** The history of a node, empty when it has none. *)
Definition historyOf (s : Tracker) (nodeName : string) : list ResultSnapshot :=
  default [] (nodeResults s !! nodeName).

(** Selection and history agree: a node has a selected index exactly when it
    has a history, the history is not empty and the index points into it. *)
Definition selectionOk (s : Tracker) : Prop :=
  ∀ nodeName,
    match nodeResults s !! nodeName with
    | None => selectedResultIndex s !! nodeName = None
    | Some results =>
        results ≠ []
        ∧ ∃ idx, selectedResultIndex s !! nodeName = Some idx ∧ idx < length results
    end.

(** An edge the router can draw: both ends are in the node map and both ports
    exist. *)
Definition resolvable (nodes : list GraphNode.t) (edge : GraphEdge.t) : Prop :=
  ∃ fromNode toNode,
    nodeMapOf nodes !! GraphEdge.from_node edge = Some fromNode
    ∧ nodeMapOf nodes !! GraphEdge.to_node edge = Some toNode
    ∧ GraphEdge.from_port edge ∈ GraphNode.outputs fromNode
    ∧ GraphEdge.to_port edge ∈ Port.name <$> GraphNode.inputs toNode.

(** * Properties *)

(** ** Strings *)


Lemma append_inj_l (a b c : string) : a +:+ b = a +:+ c → b = c.
Proof. induction a; simpl; [done|]. intros [= H]. auto. Qed.

Lemma completionKey_inj_node (runId n m : string) :
  completionKey runId n = completionKey runId m → n = m.
Proof.
  unfold completionKey. intros H.
  apply append_inj_l in H. by apply (append_inj_l ":") in H.
Qed.

Lemma string_app_length (a b : string) :
  String.length (a +:+ b) = String.length a + String.length b.
Proof. induction a; simpl; auto. Qed.

Lemma append_inj_r (a b c : string) : a +:+ c = b +:+ c → a = b.
Proof.
  revert b. induction a as [|x a IH]; intros [|y b] H; simpl in *; try done.
  - apply (f_equal String.length) in H.
    rewrite !string_app_length in H. simpl in H. lia.
  - apply (f_equal String.length) in H.
    rewrite !string_app_length in H. simpl in H. lia.
  - injection H as -> H. f_equal. auto.
Qed.

Lemma completionKey_inj_run (r r' n : string) :
  completionKey r n = completionKey r' n → r = r'.
Proof. unfold completionKey. apply append_inj_r. Qed.

(** ** Ancestors *)

Section AncestorFacts.
Variable nodes : list GraphNode.t.
Variable edges : list GraphEdge.t.

Lemma followBack_parentOf current m :
  parentOf nodes edges current m ↔ ∃ edge, edge ∈ edges ∧ followBack nodes current edge = Some m.
Proof.
  unfold parentOf, followBack. split.
  - intros (e & src & He & Hto & Hsrc & Hin & Hnm). exists e. split; [done|].
    rewrite decide_True by done. rewrite Hsrc, Hin. by rewrite Hnm.
  - intros (e & He & H). case_decide as Hto; [|done].
    destruct (findSource nodes e) as [src|] eqn:Hsrc; [|done].
    destruct (GraphNode.is_input_node src) eqn:Hin; [done|].
    injection H as <-. by exists e, src.
Qed.

Lemma parentOf_node current m :
  parentOf nodes edges current m →
  ∃ node, node ∈ nodes ∧ GraphNode.name node = m ∧ GraphNode.is_input_node node = false.
Proof.
  intros (e & src & _ & _ & Hsrc & Hin & Hnm). exists src.
  apply find_some in Hsrc as [Hsrc _]. by rewrite list_elem_of_In.
Qed.

Lemma ancestorOf_node n m :
  ancestorOf nodes edges n m →
  ∃ node, node ∈ nodes ∧ GraphNode.name node = m ∧ GraphNode.is_input_node node = false.
Proof. destruct 1; eauto using parentOf_node. Qed.

(** The program's loop body, read through [followBack]. *)
Lemma visitEdge_followBack current found work edge :
  visitEdge nodes current (found, work) edge =
  match followBack nodes current edge with
  | Some m => if decide (m ∈ found) then (found, work) else (found ++ [m], m :: work)
  | None => (found, work)
  end.
Proof.
  unfold visitEdge, followBack. case_decide; [|done].
  destruct (findSource nodes edge) as [src|]; [|done].
  destruct (GraphNode.is_input_node src); simpl; [done|].
  case_bool_decide; simpl; [by rewrite decide_True | by rewrite decide_False].
Qed.

End AncestorFacts.

Section DrainFacts.
Variable nodes : list GraphNode.t.
Variable edges : list GraphEdge.t.
Variable round : string → list string → list string → list string * list string.
Hypothesis round_ok : roundOk nodes edges round.

Lemma traversalInv_init n : traversalInv nodes edges n [] [n].
Proof.
  repeat split.
  - constructor.
  - intros m Hm. by apply elem_of_nil in Hm.
  - intros c Hc. left. by apply list_elem_of_singleton in Hc.
  - intros a [->|Ha]; [left; apply list_elem_of_here | by apply elem_of_nil in Ha].
Qed.

Lemma traversalInv_step n current found rest :
  traversalInv nodes edges n found (current :: rest) →
  traversalInv nodes edges n (round current found rest).1 (round current found rest).2.
Proof.
  intros (Hnd & Hsound & Hwork & Hclosed).
  pose proof (round_ok current found rest Hnd) as Hr.
  destruct (round current found rest) as [found' work']; simpl.
  destruct Hr as (Hnd' & Hfound' & Hwork' & _).
  assert (Hcur : current = n ∨ current ∈ found)
    by (apply Hwork; apply list_elem_of_here).
  repeat split; [done| | |].
  - intros m [Hm|Hm]%Hfound'; [by apply Hsound|].
    destruct Hcur as [->|Hcur]; [by apply ancestor_parent|].
    eapply ancestor_step; [by apply Hsound | done].
  - intros c [Hc|[Hc _]]%Hwork'; [|by right].
    destruct (Hwork c) as [->|Hc']; [by apply list_elem_of_further | by left |].
    right. apply Hfound'. by left.
  - intros a Ha.
    destruct (decide (a ∈ found' ∧ a ∉ found)) as [Hnew|Hold].
    { left. apply Hwork'. by right. }
    assert (Ha' : a = n ∨ a ∈ found).
    { destruct Ha as [->|Ha]; [by left|]. right.
      destruct (decide (a ∈ found)); [done|]. by destruct Hold. }
    destruct (Hclosed a Ha') as [[->|Hin]%elem_of_cons|Hall].
    + right. intros m Hm. apply Hfound'. by right.
    + left. apply Hwork'. by left.
    + right. intros m Hm. apply Hfound'. left. by apply Hall.
Qed.

Lemma traversalInv_final n found :
  traversalInv nodes edges n found [] →
  ∀ m, m ∈ found ↔ ancestorOf nodes edges n m.
Proof.
  intros (_ & Hsound & _ & Hclosed) m. split; [by apply Hsound|].
  induction 1 as [m Hp|m m' _ IH Hp].
  - destruct (Hclosed n) as [Hin|Hall]; [by left | by apply elem_of_nil in Hin | by apply Hall].
  - destruct (Hclosed m) as [Hin|Hall]; [by right | by apply elem_of_nil in Hin | by apply Hall].
Qed.

Lemma traversalInv_bound n found work :
  traversalInv nodes edges n found work → length found ≤ length nodes.
Proof.
  intros (Hnd & Hsound & _).
  rewrite <-(length_fmap GraphNode.name nodes).
  apply submseteq_length, NoDup_submseteq; [done|].
  intros m Hm. apply Hsound, ancestorOf_node in Hm as (node & Hnode & <- & _).
  by apply list_elem_of_fmap_2.
Qed.

(** With fuel for every name that can still be found and every name still
    queued, the traversal ends and returns exactly the ancestors. *)
Lemma drain_complete n fuel found work :
  traversalInv nodes edges n found work →
  length work + length nodes ≤ fuel + length found →
  ∃ result,
    drain round fuel found work = Some result
    ∧ NoDup result
    ∧ ∀ m, m ∈ result ↔ ancestorOf nodes edges n m.
Proof.
  revert found work. induction fuel as [|fuel IH]; intros found work Hinv Hfuel.
  - pose proof (traversalInv_bound _ _ _ Hinv) as Hb.
    destruct work as [|c work]; [|simpl in Hfuel; lia].
    exists found. split; [done|]. split; [apply Hinv|].
    by apply traversalInv_final.
  - destruct work as [|current rest].
    + exists found. split; [done|]. split; [apply Hinv|].
      by apply traversalInv_final.
    + simpl.
      pose proof (traversalInv_step _ _ _ _ Hinv) as Hinv'.
      pose proof (round_ok current found rest (proj1 Hinv)) as Hr.
      destruct (round current found rest) as [found' work']; simpl in *.
      destruct Hr as (_ & _ & _ & Hlen).
      apply IH; [done|].
      pose proof (traversalInv_bound _ _ _ Hinv'). lia.
Qed.

(** More fuel does not change a result. *)
Lemma drain_fuel_mono fuel fuel' found work result :
  drain round fuel found work = Some result → fuel ≤ fuel' →
  drain round fuel' found work = Some result.
Proof.
  revert fuel' found work. induction fuel as [|fuel IH]; intros fuel' found work H Hle.
  - destruct work; [|done]. by destruct fuel'.
  - destruct work as [|current rest]; [by destruct fuel'|].
    destruct fuel' as [|fuel']; [lia|]. simpl in *.
    destruct (round current found rest). apply IH; [done | lia].
Qed.

End DrainFacts.

Section Rounds.
Variable nodes : list GraphNode.t.
Variable edges : list GraphEdge.t.

Lemma visitLoop_drain fuel found work :
  visitLoop nodes edges fuel found work = drain (dfsRound nodes edges) fuel found work.
Proof.
  revert found work. induction fuel as [|fuel IH]; intros found [|c work]; simpl; try done;
    unfold dfsRound; destruct (fold_left _ _ _); apply IH.
Qed.

Lemma visitEdges_spec current es found rest :
  NoDup found →
  let '(found', work') := fold_left (visitEdge nodes current) es (found, rest) in
  NoDup found'
  ∧ (∀ m, m ∈ found' ↔ m ∈ found ∨ ∃ e, e ∈ es ∧ followBack nodes current e = Some m)
  ∧ (∀ c, c ∈ work' ↔ c ∈ rest ∨ (c ∈ found' ∧ c ∉ found))
  ∧ length work' + length found = length rest + length found'.
Proof.
  revert found rest. induction es as [|e es IH]; intros found rest Hnd; cbn [fold_left].
  - repeat split; try done.
    + by left.
    + intros [?|(e & He & _)]; [done | by apply elem_of_nil in He].
    + by left.
    + intros [?|[? ?]]; done.
  - rewrite visitEdge_followBack.
    destruct (followBack nodes current e) as [m0|] eqn:He.
    + destruct (decide (m0 ∈ found)) as [Hin|Hout].
      * specialize (IH found rest Hnd).
        destruct (fold_left _ es _) as [found' work'].
        destruct IH as (Hnd' & Hf & Hw & Hlen). repeat split; try done.
        -- intros [?|(e' & He' & Hfb)]%Hf; [by left|].
           right. exists e'. split; [by apply list_elem_of_further | done].
        -- intros [?|(e' & [->|He']%elem_of_cons & Hfb)]; apply Hf.
           ++ by left.
           ++ left. congruence.
           ++ right. by exists e'.
        -- by apply Hw.
        -- by apply Hw.
      * assert (Hnd1 : NoDup (found ++ [m0])).
        { apply NoDup_app. repeat split; [done| |apply NoDup_singleton].
          intros x Hx ->%list_elem_of_singleton. done. }
        specialize (IH (found ++ [m0]) (m0 :: rest) Hnd1).
        destruct (fold_left _ es _) as [found' work'].
        destruct IH as (Hnd' & Hf & Hw & Hlen). repeat split; try done.
        -- intros [[?| ->%list_elem_of_singleton]%elem_of_app|(e' & He' & Hfb)]%Hf.
           ++ by left.
           ++ right. exists e. split; [apply list_elem_of_here | done].
           ++ right. exists e'. split; [by apply list_elem_of_further | done].
        -- intros [?|(e' & [->|He']%elem_of_cons & Hfb)]; apply Hf.
           ++ left. apply elem_of_app. by left.
           ++ left. apply elem_of_app. right. apply list_elem_of_singleton. congruence.
           ++ right. by exists e'.
        -- intros [[->|?]%elem_of_cons|[Hc Hn]]%Hw.
           ++ right. split; [|done]. apply Hf. left. apply elem_of_app. right.
              by apply list_elem_of_singleton.
           ++ by left.
           ++ right. split; [done|]. intros ?. apply Hn, elem_of_app. by left.
        -- intros [?|[Hc Hn]]; apply Hw.
           ++ left. by apply list_elem_of_further.
           ++ destruct (decide (c = m0)) as [->|Hne]; [left; apply list_elem_of_here|].
              right. split; [done|].
              intros [?| ?%list_elem_of_singleton]%elem_of_app; done.
        -- rewrite length_app in Hlen. simpl in Hlen. lia.
    + specialize (IH found rest Hnd).
      destruct (fold_left _ es _) as [found' work'].
      destruct IH as (Hnd' & Hf & Hw & Hlen). repeat split; try done.
      * intros [?|(e' & He' & Hfb)]%Hf; [by left|].
        right. exists e'. split; [by apply list_elem_of_further | done].
      * intros [?|(e' & [->|He']%elem_of_cons & Hfb)]; apply Hf.
        -- by left.
        -- congruence.
        -- right. by exists e'.
      * by apply Hw.
      * by apply Hw.
Qed.

Lemma dfsRound_ok : roundOk nodes edges (dfsRound nodes edges).
Proof.
  intros current found rest Hnd. unfold dfsRound.
  pose proof (visitEdges_spec current edges found rest Hnd) as H.
  destruct (fold_left _ edges _) as [found' work'].
  destruct H as (Hnd' & Hf & Hw & Hlen). repeat split; try done.
  - intros Hm. apply Hf in Hm. by rewrite followBack_parentOf.
  - intros Hm. apply Hf. by rewrite <-followBack_parentOf.
  - by apply Hw.
  - by apply Hw.
Qed.

Lemma queueEdges_spec current es found rest :
  NoDup found →
  let '(found', work') := fold_left (queueEdge nodes current) es (found, rest) in
  NoDup found'
  ∧ (∀ m, m ∈ found' ↔ m ∈ found ∨ ∃ e, e ∈ es ∧ followBack nodes current e = Some m)
  ∧ (∀ c, c ∈ work' ↔ c ∈ rest ∨ (c ∈ found' ∧ c ∉ found))
  ∧ length work' + length found = length rest + length found'.
Proof.
  revert found rest. induction es as [|e es IH]; intros found rest Hnd; cbn [fold_left].
  - repeat split; try done.
    + by left.
    + intros [?|(e & He & _)]; [done | by apply elem_of_nil in He].
    + by left.
    + intros [?|[? ?]]; done.
  - unfold queueEdge at 2. cbn [fst snd].
    destruct (followBack nodes current e) as [m0|] eqn:He.
    + destruct (decide (m0 ∈ found)) as [Hin|Hout].
      * specialize (IH found rest Hnd).
        destruct (fold_left _ es _) as [found' work'].
        destruct IH as (Hnd' & Hf & Hw & Hlen). repeat split; try done.
        -- intros [?|(e' & He' & Hfb)]%Hf; [by left|].
           right. exists e'. split; [by apply list_elem_of_further | done].
        -- intros [?|(e' & [->|He']%elem_of_cons & Hfb)]; apply Hf.
           ++ by left.
           ++ left. congruence.
           ++ right. by exists e'.
        -- by apply Hw.
        -- by apply Hw.
      * assert (Hnd1 : NoDup (found ++ [m0])).
        { apply NoDup_app. repeat split; [done| |apply NoDup_singleton].
          intros x Hx ->%list_elem_of_singleton. done. }
        specialize (IH (found ++ [m0]) (rest ++ [m0]) Hnd1).
        destruct (fold_left _ es _) as [found' work'].
        destruct IH as (Hnd' & Hf & Hw & Hlen). repeat split; try done.
        -- intros [[?| ->%list_elem_of_singleton]%elem_of_app|(e' & He' & Hfb)]%Hf.
           ++ by left.
           ++ right. exists e. split; [apply list_elem_of_here | done].
           ++ right. exists e'. split; [by apply list_elem_of_further | done].
        -- intros [?|(e' & [->|He']%elem_of_cons & Hfb)]; apply Hf.
           ++ left. apply elem_of_app. by left.
           ++ left. apply elem_of_app. right. apply list_elem_of_singleton. congruence.
           ++ right. by exists e'.
        -- intros [[?| ->%list_elem_of_singleton]%elem_of_app|[Hc Hn]]%Hw.
           ++ by left.
           ++ right. split; [|done]. apply Hf. left. apply elem_of_app. right.
              by apply list_elem_of_singleton.
           ++ right. split; [done|]. intros ?. apply Hn, elem_of_app. by left.
        -- intros [?|[Hc Hn]]; apply Hw.
           ++ left. apply elem_of_app. by left.
           ++ destruct (decide (c = m0)) as [->|Hne].
              { left. apply elem_of_app. right. by apply list_elem_of_singleton. }
              right. split; [done|].
              intros [?| ?%list_elem_of_singleton]%elem_of_app; done.
        -- rewrite !length_app in Hlen. simpl in Hlen. lia.
    + specialize (IH found rest Hnd).
      destruct (fold_left _ es _) as [found' work'].
      destruct IH as (Hnd' & Hf & Hw & Hlen). repeat split; try done.
      * intros [?|(e' & He' & Hfb)]%Hf; [by left|].
        right. exists e'. split; [by apply list_elem_of_further | done].
      * intros [?|(e' & [->|He']%elem_of_cons & Hfb)]; apply Hf.
        -- by left.
        -- congruence.
        -- right. by exists e'.
      * by apply Hw.
      * by apply Hw.
Qed.

Lemma queueRound_ok : roundOk nodes edges (queueRound nodes edges).
Proof.
  intros current found rest Hnd. unfold queueRound.
  pose proof (queueEdges_spec current edges found rest Hnd) as H.
  destruct (fold_left _ edges _) as [found' work'].
  destruct H as (Hnd' & Hf & Hw & Hlen). repeat split; try done.
  - intros Hm. apply Hf in Hm. by rewrite followBack_parentOf.
  - intros Hm. apply Hf. by rewrite <-followBack_parentOf.
  - by apply Hw.
  - by apply Hw.
Qed.

(** Served oldest first, the program's step ends within the same fuel and
    collects the same set. *)
Lemma queue_spec n :
  ∃ result,
    drain (queueRound nodes edges) (S (length nodes)) [] [n] = Some result
    ∧ ∀ m, m ∈ result ↔ ancestorOf nodes edges n m.
Proof.
  destruct (drain_complete nodes edges _ queueRound_ok n (S (length nodes)) [] [n])
    as (r & Hr & _ & Hm); [apply traversalInv_init | simpl; lia |].
  by exists r.
Qed.

(** Where ids are the normalised names, an edge leads the search of the
    specification, at the id of the current node, where it leads the
    program at its name. *)
Lemma specEdge_queueEdge current found work edge :
  idsAreNormalizedNames nodes →
  specEdge nodes (normalizeName current) (found, normalizeName <$> work) edge
  = prod_map id (fmap normalizeName) (queueEdge nodes current (found, work) edge).
Proof.
  intros Hids. unfold specEdge, queueEdge, followBack, findSource, nodeWithId.
  cbn [fst snd]. case_decide as Hto; [|done].
  destruct (find _ nodes) as [met|] eqn:Hmet; [|done].
  apply find_some in Hmet as [Hin Hid].
  apply bool_decide_eq_true_1 in Hid. apply list_elem_of_In in Hin.
  destruct (GraphNode.is_input_node met); [done|].
  case_decide; [done|].
  unfold prod_map. cbn [fst snd id]. rewrite fmap_app. cbn [fmap list_fmap].
  by rewrite <-Hid, (Hids met Hin).
Qed.

Lemma specEdges_queueEdges current es found work :
  idsAreNormalizedNames nodes →
  fold_left (specEdge nodes (normalizeName current)) es (found, normalizeName <$> work)
  = prod_map id (fmap normalizeName)
      (fold_left (queueEdge nodes current) es (found, work)).
Proof.
  intros Hids. revert found work.
  induction es as [|e es IH]; intros found work; cbn [fold_left]; [done|].
  rewrite specEdge_queueEdge by done.
  destruct (queueEdge nodes current (found, work) e) as [found' work'].
  apply IH.
Qed.

Lemma specLoop_queue fuel found work :
  idsAreNormalizedNames nodes →
  specLoop nodes edges fuel found (normalizeName <$> work)
  = drain (queueRound nodes edges) fuel found work.
Proof.
  intros Hids. revert found work.
  induction fuel as [|fuel IH]; intros found [|current rest]; try done.
  cbn [fmap list_fmap specLoop drain]. unfold queueRound.
  rewrite specEdges_queueEdges by done.
  destruct (fold_left (queueEdge nodes current) edges (found, rest)) as [found' work'].
  apply IH.
Qed.

(** The search of the specification started at the id of [n] collects the
    ancestors of [n]. *)
Lemma specAncestors_spec n :
  idsAreNormalizedNames nodes →
  ∀ m, m ∈ specAncestors nodes edges (normalizeName n) ↔ ancestorOf nodes edges n m.
Proof.
  intros Hids. unfold specAncestors.
  change [normalizeName n] with (normalizeName <$> [n]).
  rewrite specLoop_queue by done.
  by destruct (queue_spec n) as (r & -> & Hr).
Qed.

(** [getAncestors] never runs out of fuel. *)
Lemma getAncestors_terminates n :
  visitLoop nodes edges (S (length nodes)) [] [n] = Some (getAncestors nodes edges n).
Proof.
  unfold getAncestors. rewrite visitLoop_drain.
  destruct (drain_complete nodes edges _ dfsRound_ok n (S (length nodes)) [] [n])
    as (r & -> & _); [apply traversalInv_init | simpl; lia | done].
Qed.

(** The result does not depend on the fuel once there is enough of it. *)
Lemma getAncestors_fuel n fuel :
  length nodes < fuel →
  visitLoop nodes edges fuel [] [n] = Some (getAncestors nodes edges n).
Proof.
  intros Hfuel. rewrite visitLoop_drain.
  apply (drain_fuel_mono _ (S (length nodes))); [|lia].
  rewrite <-visitLoop_drain. apply getAncestors_terminates.
Qed.

Lemma getAncestors_spec n :
  NoDup (getAncestors nodes edges n)
  ∧ ∀ m, m ∈ getAncestors nodes edges n ↔ ancestorOf nodes edges n m.
Proof.
  unfold getAncestors. rewrite visitLoop_drain.
  destruct (drain_complete nodes edges _ dfsRound_ok n (S (length nodes)) [] [n])
    as (r & -> & Hnd & Hr); [apply traversalInv_init | simpl; lia | done].
Qed.

End Rounds.

Example getAncestors_demo :
  let n i nm inp := GraphNode.mk i nm "FN" [] [] None None 0 0 "pending" false inp in
  let e f t := GraphEdge.mk (f +:+ "-" +:+ t) f "out" t "in" false false in
  getAncestors [n "a" "a" true; n "b_1" "b 1" false; n "c" "c" false; n "d" "d" false]
               [e "a" "b_1"; e "b_1" "d"; e "c" "d"; e "a" "c"] "d"
  = ["b 1"; "c"]
  ∧ specAncestors [n "a" "a" true; n "b_1" "b 1" false; n "c" "c" false; n "d" "d" false]
               [e "a" "b_1"; e "b_1" "d"; e "c" "d"; e "a" "c"] "d"
  = ["b 1"; "c"].
Proof. vm_compute. done. Qed.

(** The program pops the newest name first, the specification serves the
    oldest first: the order of the result may differ, the set does not. *)
Example getAncestors_order :
  let n i := GraphNode.mk i i "FN" [] [] None None 0 0 "pending" false false in
  let e f t := GraphEdge.mk (f +:+ "-" +:+ t) f "out" t "in" false false in
  let nodes := [n "p"; n "q"; n "b"; n "c"; n "d"] in
  let edges := [e "b" "d"; e "c" "d"; e "p" "b"; e "q" "c"] in
  getAncestors nodes edges "d" = ["b"; "c"; "q"; "p"]
  ∧ specAncestors nodes edges "d" = ["b"; "c"; "p"; "q"].
Proof. vm_compute. done. Qed.

(** The chain [Input → X → Y]. *)
Lemma getAncestors_chain (input x y : GraphNode.t) (e1 e2 : GraphEdge.t) :
  GraphNode.is_input_node input = true →
  GraphNode.is_input_node x = false →
  GraphNode.id input ≠ GraphNode.id x →
  GraphEdge.from_node e1 = GraphNode.id input →
  GraphEdge.to_node e1 = normalizeName (GraphNode.name x) →
  GraphEdge.from_node e2 = GraphNode.id x →
  GraphEdge.to_node e2 = normalizeName (GraphNode.name y) →
  getAncestors [input; x; y] [e1; e2] (GraphNode.name y) = [GraphNode.name x].
Proof.
  intros Hin Hx Hid Hf1 Ht1 Hf2 Ht2.
  set (nodes := [input; x; y]).
  assert (H1 : ∀ current, followBack nodes current e1 = None).
  { intros current. unfold followBack, findSource, nodes. simpl.
    rewrite Hf1, bool_decide_eq_true_2 by done. rewrite Hin. by case_decide. }
  assert (H2 : followBack nodes (GraphNode.name y) e2 = Some (GraphNode.name x)).
  { unfold followBack, findSource, nodes. simpl.
    rewrite decide_True by done.
    rewrite Hf2, bool_decide_eq_false_2, bool_decide_eq_true_2 by done.
    by rewrite Hx. }
  assert (H3 : followBack nodes (GraphNode.name x) e2 = Some (GraphNode.name x)
               ∨ followBack nodes (GraphNode.name x) e2 = None).
  { unfold followBack, findSource, nodes. simpl. case_decide; [|by right].
    rewrite Hf2, bool_decide_eq_false_2, bool_decide_eq_true_2 by done.
    rewrite Hx. by left. }
  unfold getAncestors. cbn [length]. fold nodes.
  cbn [visitLoop fold_left].
  rewrite visitEdge_followBack, H1, visitEdge_followBack, H2.
  rewrite decide_False by apply not_elem_of_nil.
  change (length nodes) with 3.
  cbn [visitLoop fold_left app].
  rewrite visitEdge_followBack, H1, visitEdge_followBack.
  destruct H3 as [-> | ->]; [|done].
  rewrite decide_True by apply list_elem_of_here. done.
Qed.

(** C3 as stated fails.  In the chain [A (input) → B → C] whose edges name
    the ids [a], [b], [c] while the names are [A], [B], [C], the router draws
    both edges and the search of the claim, started at the id of [C],
    collects [B]; yet [getAncestors] of the name [C] is empty, because no
    edge's [to_node] is the normalised name ["C"]. *)
Lemma chain_by_id_has_no_ancestors :
  let nodes := Sample.idChainNodes in
  let edges := Sample.idChainEdges in
  (∃ input x y e1 e2,
      nodes = [input; x; y] ∧ edges = [e1; e2]
      ∧ GraphNode.is_input_node input = true
      ∧ GraphNode.is_input_node x = false
      ∧ GraphEdge.from_node e1 = GraphNode.id input
      ∧ GraphEdge.to_node e1 = GraphNode.id x
      ∧ GraphEdge.from_node e2 = GraphNode.id x
      ∧ GraphEdge.to_node e2 = GraphNode.id y
      ∧ getAncestors nodes edges (GraphNode.name y) = []
      ∧ getAncestors nodes edges (GraphNode.name y) ≠ [GraphNode.name x]
      ∧ specAncestors nodes edges (GraphNode.id y) = [GraphNode.name x])
  ∧ length (edgePaths nodes edges) = 2.
Proof.
  intros nodes edges. split; [|by vm_compute].
  exists (Sample.node "a" "A" true), (Sample.node "b" "B" false),
    (Sample.node "c" "C" false), (Sample.edge "a" "b"), (Sample.edge "b" "c").
  repeat split; try reflexivity. by vm_compute.
Qed.

(** C3, as the program has it.  [getAncestors] returns, for every node name, the names of
    the nodes a reverse search over the edge list reaches: the search follows
    an edge backward when its [to_node] is the current name with spaces and
    hyphens replaced by underscores, to the node whose id is its [from_node],
    and collects only nodes that are not input nodes.  The loop ends after at
    most one more iteration than there are nodes and collects no name twice.
    In a graph whose ids are the normalised names the result has the same
    members as the reverse breadth-first search of the specification
    ([to_node == current], continuing at [from_node]) started at the id of
    the node.  For a chain [Input → X → Y] whose edges carry the normalised
    names of [X] and [Y] as [to_node], the ancestors of [Y] are exactly
    [X]. *)
Theorem getAncestors_reverse_bfs :
  (∀ nodes edges n,
      (∀ fuel, length nodes < fuel →
         visitLoop nodes edges fuel [] [n] = Some (getAncestors nodes edges n))
      ∧ NoDup (getAncestors nodes edges n)
      ∧ (∀ m, m ∈ getAncestors nodes edges n ↔ ancestorOf nodes edges n m)
      ∧ (idsAreNormalizedNames nodes →
         ∀ m, m ∈ getAncestors nodes edges n
              ↔ m ∈ specAncestors nodes edges (normalizeName n))
      ∧ (∀ m, m ∈ getAncestors nodes edges n →
           ∃ node, node ∈ nodes ∧ GraphNode.name node = m
                   ∧ GraphNode.is_input_node node = false))
  ∧ (∀ input x y e1 e2,
      GraphNode.is_input_node input = true →
      GraphNode.is_input_node x = false →
      GraphNode.id input ≠ GraphNode.id x →
      GraphEdge.from_node e1 = GraphNode.id input →
      GraphEdge.to_node e1 = normalizeName (GraphNode.name x) →
      GraphEdge.from_node e2 = GraphNode.id x →
      GraphEdge.to_node e2 = normalizeName (GraphNode.name y) →
      getAncestors [input; x; y] [e1; e2] (GraphNode.name y) = [GraphNode.name x]).
Proof.
  split.
  - intros nodes edges n.
    destruct (getAncestors_spec nodes edges n) as [Hnd Hdfs].
    split; [intros fuel; apply getAncestors_fuel|]. split; [done|].
    split; [done|]. split.
    + intros Hids m. by rewrite Hdfs, specAncestors_spec.
    + intros m Hm%Hdfs. by eapply ancestorOf_node.
  - apply getAncestors_chain.
Qed.

Lemma getAncestors_reverse_bfs_witness :
  (∀ m, m ∈ getAncestors Sample.spacedNodes Sample.spacedEdges "my node-1"
        ↔ m ∈ specAncestors Sample.spacedNodes Sample.spacedEdges "my_node_1")
  ∧ getAncestors Sample.spacedNodes Sample.spacedEdges "my node-1" = ["clean-up"].
Proof.
  split.
  - destruct (proj1 getAncestors_reverse_bfs Sample.spacedNodes Sample.spacedEdges
                "my node-1") as (_ & _ & _ & H & _).
    apply H. intros node Hnode.
    repeat (apply elem_of_cons in Hnode as [->|Hnode]; [reflexivity|]).
    by apply elem_of_nil in Hnode.
  - apply (proj2 getAncestors_reverse_bfs (Sample.node "load_data" "load data" true)
             (Sample.node "clean_up" "clean-up" false)
             (Sample.node "my_node_1" "my node-1" false)
             (Sample.edge "load_data" "clean_up") (Sample.edge "clean_up" "my_node_1"));
      simpl; try reflexivity.
    discriminate.
Defined.

(** ** Completion ingestion *)

(** A notification that is not recognised or was already consumed changes
    nothing. *)
Lemma processCompletion_consumed (data : CanvasData.t) (s : Tracker) runId completedNode :
  truthy (CanvasData.run_id data) = Some runId →
  truthy (CanvasData.completed_node data) = Some completedNode →
  completionKey runId completedNode ∈ globalProcessedSet s →
  processCompletion (Some data) s = s.
Proof.
  intros Hr Hn Hin. unfold processCompletion. rewrite Hr, Hn.
  by rewrite decide_True.
Qed.

(** What a notification consumed for the first time writes. *)
Lemma processCompletion_fresh (data : CanvasData.t) (s : Tracker) runId completedNode :
  truthy (CanvasData.run_id data) = Some runId →
  truthy (CanvasData.completed_node data) = Some completedNode →
  completionKey runId completedNode ∉ globalProcessedSet s →
  let s' := processCompletion (Some data) s in
  globalProcessedSet s' = {[completionKey runId completedNode]} ∪ globalProcessedSet s
  ∧ pendingRunIds s' =
      match pendingRunIds s !! completedNode with
      | Some ids => <[completedNode := filter (λ id, id ≠ runId) ids]> (pendingRunIds s)
      | None => pendingRunIds s
      end
  ∧ nodeResults s' =
      match resultSnapshotOf data completedNode with
      | Some snap =>
          <[completedNode := default [] (nodeResults s !! completedNode) ++ [snap]]>
            (nodeResults s)
      | None => nodeResults s
      end
  ∧ selectedResultIndex s' =
      match resultSnapshotOf data completedNode with
      | Some snap =>
          <[completedNode := length (default [] (nodeResults s !! completedNode))]>
            (selectedResultIndex s)
      | None => selectedResultIndex s
      end.
Proof.
  intros Hr Hn Hout. unfold processCompletion. rewrite Hr, Hn.
  rewrite decide_False by done.
  destruct (runIdToNodes s !! runId) as [executed|];
    [destruct (forallb _ executed)|];
    destruct (resultSnapshotOf data completedNode) as [snap|]; simpl;
    rewrite ?length_app; simpl;
    repeat split; try done; f_equal; lia.
Qed.

Lemma processCompletion_unrecognised (value : option CanvasData.t) (s : Tracker) :
  (∀ data, value = Some data →
     truthy (CanvasData.run_id data) = None
     ∨ truthy (CanvasData.completed_node data) = None) →
  processCompletion value s = s.
Proof.
  intros H. destruct value as [data|]; [|done].
  unfold processCompletion.
  destruct (H data eq_refl) as [-> | ->]; [done|].
  by destruct (truthy (CanvasData.run_id data)).
Qed.

Lemma processCompletion_twice (value : option CanvasData.t) (s : Tracker) :
  processCompletion value (processCompletion value s) = processCompletion value s.
Proof.
  destruct value as [data|]; [|done].
  destruct (truthy (CanvasData.run_id data)) as [runId|] eqn:Hr;
    [|rewrite !processCompletion_unrecognised; naive_solver].
  destruct (truthy (CanvasData.completed_node data)) as [node|] eqn:Hn;
    [|rewrite !processCompletion_unrecognised; naive_solver].
  destruct (decide (completionKey runId node ∈ globalProcessedSet s)) as [Hin|Hout].
  - by rewrite !(processCompletion_consumed data s runId node).
  - destruct (processCompletion_fresh data s runId node Hr Hn Hout) as (Hp & _).
    apply (processCompletion_consumed _ _ runId node); [done..|].
    rewrite Hp. apply elem_of_union_l. by apply elem_of_singleton.
Qed.

(** C1. Completion ingestion is idempotent: delivering the same notification
    two or more times in a row leaves the whole tracker, and so
    [pendingRunIds], [nodeResults] and [selectedResultIndex], as one delivery
    leaves it; once its key is in the processed set a notification changes
    nothing. *)
Theorem completion_idempotent (value : option CanvasData.t) (s : Tracker) (n : nat) :
  let once := processCompletion value s in
  let many := Nat.iter (S (S n)) (processCompletion value) s in
  many = once
  ∧ pendingRunIds many = pendingRunIds once
  ∧ nodeResults many = nodeResults once
  ∧ selectedResultIndex many = selectedResultIndex once
  ∧ processCompletion value once = once.
Proof.
  intros once many.
  assert (Hmany : many = once).
  { unfold many, once. induction n as [|n IH].
    - simpl. apply processCompletion_twice.
    - change (Nat.iter (S (S (S n))) (processCompletion value) s)
        with (processCompletion value (Nat.iter (S (S n)) (processCompletion value) s)).
      rewrite IH. apply processCompletion_twice. }
  rewrite Hmany. repeat split. apply processCompletion_twice.
Qed.

(** ** Result history *)

Lemma deliver_history (node : string) (ds : list CanvasData.t) (s : Tracker) :
  Forall (completionWithResult node) ds →
  NoDup (CanvasData.run_id <$> ds) →
  (∀ runId, Some runId ∈ CanvasData.run_id <$> ds →
     completionKey runId node ∉ globalProcessedSet s) →
  getResultCount (deliver ds s) node = getResultCount s node + length ds
  ∧ (ds ≠ [] →
     selectedResultIndex (deliver ds s) !! node
     = Some (getResultCount s node + length ds - 1)).
Proof.
  revert s. induction ds as [|d ds IH]; intros s Hall Hnd Hfresh.
  - simpl. split; [lia | done].
  - apply Forall_cons in Hall as [(Hn & [runId Hr] & [snap Hsnap]) Hall].
    rewrite fmap_cons in Hnd, Hfresh. apply NoDup_cons in Hnd as [Hnew Hnd].
    assert (Hrun : CanvasData.run_id d = Some runId).
    { by destruct (CanvasData.run_id d) as [[|]|]. }
    assert (Hkey : completionKey runId node ∉ globalProcessedSet s).
    { apply Hfresh. rewrite Hrun. apply list_elem_of_here. }
    destruct (processCompletion_fresh d s runId node Hr Hn Hkey)
      as (Hp & _ & Hres & Hsel).
    rewrite Hsnap in Hres, Hsel.
    set (s1 := processCompletion (Some d) s) in *.
    assert (Hcount : getResultCount s1 node = S (getResultCount s node)).
    { unfold getResultCount. rewrite Hres, lookup_insert_eq. simpl.
      rewrite length_app. simpl. lia. }
    destruct (IH s1) as [Hlen Hidx]; [done..| |].
    { intros r Hin. rewrite Hp. intros [Heq%elem_of_singleton|Hold]%elem_of_union.
      - apply completionKey_inj_run in Heq as ->. apply Hnew. by rewrite Hrun.
      - revert Hold. apply Hfresh. by apply list_elem_of_further. }
    change (deliver (d :: ds) s) with (deliver ds s1).
    split; [simpl; lia|]. intros _.
    destruct ds as [|d' ds'].
    + simpl. rewrite Hsel, lookup_insert_eq. f_equal. unfold getResultCount. lia.
    + rewrite Hidx by done. f_equal. simpl. lia.
Qed.

(** C4. History grows by one entry per completion and the newest entry is
    selected: when a node receives [K] completion notifications with pairwise
    distinct run ids, none consumed before, each carrying at least one
    non-null output value, its history is [K] entries longer and the index of
    the last entry is selected; from the initial tracker the history has
    length [K] and the selected index is [K - 1]. *)
Theorem history_monotone (node : string) (ds : list CanvasData.t) :
  Forall (completionWithResult node) ds →
  NoDup (CanvasData.run_id <$> ds) →
  (∀ s,
     (∀ runId, Some runId ∈ CanvasData.run_id <$> ds →
        completionKey runId node ∉ globalProcessedSet s) →
     length (default [] (nodeResults (deliver ds s) !! node))
     = length (default [] (nodeResults s !! node)) + length ds
     ∧ (ds ≠ [] →
        selectedResultIndex (deliver ds s) !! node
        = Some (length (default [] (nodeResults s !! node)) + length ds - 1)))
  ∧ length (default [] (nodeResults (deliver ds initialTracker) !! node)) = length ds
  ∧ (ds ≠ [] →
     selectedResultIndex (deliver ds initialTracker) !! node = Some (length ds - 1)).
Proof.
  intros Hall Hnd. split.
  - intros s Hfresh. by apply deliver_history.
  - destruct (deliver_history node ds initialTracker Hall Hnd) as [Hlen Hidx].
    { intros runId _. simpl. apply not_elem_of_empty. }
    unfold getResultCount in *. simpl in *. rewrite lookup_empty in *. simpl in *.
    split; [done|]. intros Hne. by rewrite Hidx.
Qed.

(** ** Triggering a run *)



Lemma handleRunToNode_tracker nodeName runId (c : Canvas) :
  tracker (handleRunToNode nodeName runId c).1
  = mkTracker
      (fold_left (addPending runId) (nodesToRunOf c nodeName) (pendingRunIds (tracker c)))
      (<[runId := nodesToRunOf c nodeName]> (runIdToNodes (tracker c)))
      (nodeResults (tracker c)) (selectedResultIndex (tracker c))
      (globalProcessedSet (tracker c)) (timers (tracker c)).
Proof.
  unfold handleRunToNode.
  destruct (deriveNodes _ _), (deriveEdges _ _). by destruct (value c).
Qed.

(** The handler leaves [gradio.props.value] as it was, and throws exactly
    when there is one. *)
Lemma handleRunToNode_value nodeName runId (c : Canvas) :
  value (handleRunToNode nodeName runId c).1 = value c.
Proof.
  unfold handleRunToNode.
  destruct (deriveNodes _ _), (deriveEdges _ _). by destruct (value c).
Qed.

Lemma handleRunToNode_outcome nodeName runId (c : Canvas) :
  (handleRunToNode nodeName runId c).2
  = match value c with
    | Some _ => Threw "ReferenceError: itemListValues is not defined"
    | None => Returned
    end.
Proof.
  unfold handleRunToNode.
  destruct (deriveNodes _ _), (deriveEdges _ _). by destruct (value c).
Qed.

Lemma lacksResults_recorded (s : Tracker) (m : string) :
  lacksResults (nodeResults s) m = false ↔ hasRecordedResult s m.
Proof.
  unfold lacksResults, hasRecordedResult.
  destruct (nodeResults s !! m) as [[|r l]|]; simpl; split; try done.
  - intros (results & [= <-] & Hne). done.
  - intros _. by eexists.
  - by intros (results & ? & _).
Qed.

Lemma lacksResults_unrecorded (s : Tracker) (m : string) :
  lacksResults (nodeResults s) m = true ↔ ¬ hasRecordedResult s m.
Proof.
  rewrite <-lacksResults_recorded. by destruct (lacksResults _ _).
Qed.



Lemma filter_all_true {A} (f : A → bool) (l : list A) :
  (∀ x, x ∈ l → f x = true) → List.filter f l = l.
Proof.
  induction l as [|a l IH]; intros H; [done|]. simpl.
  rewrite (H a) by apply list_elem_of_here. f_equal. apply IH.
  intros x Hx. apply H. by apply list_elem_of_further.
Qed.


Lemma processCompletion_processed (d : CanvasData.t) (s : Tracker) runId m :
  truthy (CanvasData.run_id d) = Some runId →
  completionKey runId m ∈ globalProcessedSet (processCompletion (Some d) s) ↔
  completionKey runId m ∈ globalProcessedSet s
  ∨ truthy (CanvasData.completed_node d) = Some m.
Proof.
  intros Hr.
  destruct (truthy (CanvasData.completed_node d)) as [node|] eqn:Hn.
  - destruct (decide (completionKey runId node ∈ globalProcessedSet s)) as [Hin|Hout].
    + rewrite (processCompletion_consumed d s runId node) by done.
      split; [by left|]. intros [?|[= ->]]; done.
    + destruct (processCompletion_fresh d s runId node Hr Hn Hout) as (Hp & _).
      rewrite Hp, elem_of_union, elem_of_singleton. split.
      * intros [->%completionKey_inj_node|?]; [by right | by left].
      * intros [?|[= ->]]; [by right | by left].
  - rewrite processCompletion_unrecognised by naive_solver.
    split; [by left|]. by intros [?|?].
Qed.







(** ** The outbound run command *)

(** C8. The program at a click on the run control of [C] in the chain
    [A (input) → B → C] with a current value: the handler records the run,
    marking [B] and [C] pending under the minted run id, and then throws a
    [ReferenceError], because the value it starts to build reads
    [itemListValues], which is declared nowhere.  No command is dispatched,
    and the current value is the one from before the click: it names no run
    target and no run id. *)
Theorem run_command_not_dispatched :
  let runId := mintRunId "C" "1" "x" in
  let result := handleRunToNode "C" runId Sample.chainCanvas in
  is_Some (value Sample.chainCanvas)
  ∧ result.2 = Threw "ReferenceError: itemListValues is not defined"
  ∧ value result.1 = value Sample.chainCanvas
  ∧ (value result.1 ≫= CanvasData.run_to_node) = None
  ∧ (value result.1 ≫= CanvasData.run_id) = None
  ∧ runIdToNodes (tracker result.1) !! runId = Some ["B"; "C"]
  ∧ pendingOf (tracker result.1) "B" = [runId]
  ∧ pendingOf (tracker result.1) "C" = [runId].
Proof.
  intros runId result. split; [by eexists|].
  split; [apply handleRunToNode_outcome|].
  split; [apply handleRunToNode_value|].
  unfold result. rewrite handleRunToNode_value.
  repeat split; by vm_compute.
Qed.

(** ** Ancestry lookup by normalised name *)

Lemma findSource_withId (pre post : list GraphNode.t) (t : GraphNode.t) (i : string)
    (edge : GraphEdge.t) :
  GraphEdge.from_node edge ≠ GraphNode.id t →
  GraphEdge.from_node edge ≠ i →
  findSource (pre ++ withId i t :: post) edge = findSource (pre ++ t :: post) edge.
Proof.
  intros Ht Hi. unfold findSource. induction pre as [|a pre IH]; simpl.
  - rewrite !bool_decide_eq_false_2; done.
  - by rewrite IH.
Qed.

Lemma visitLoop_ext (nodes nodes' : list GraphNode.t) (edges : list GraphEdge.t) :
  (∀ edge, edge ∈ edges → findSource nodes edge = findSource nodes' edge) →
  ∀ fuel found work,
    visitLoop nodes edges fuel found work = visitLoop nodes' edges fuel found work.
Proof.
  intros Hsrc.
  assert (Hfold : ∀ current es st, (∀ e, e ∈ es → e ∈ edges) →
            fold_left (visitEdge nodes current) es st
            = fold_left (visitEdge nodes' current) es st).
  { intros current es. induction es as [|e es IH]; intros st Hes; [done|]. simpl.
    rewrite IH by (intros; apply Hes; by apply list_elem_of_further).
    f_equal. unfold visitEdge. destruct st.
    rewrite (Hsrc e) by (apply Hes, list_elem_of_here). done. }
  induction fuel as [|fuel IH]; intros found [|current rest]; simpl; try done.
  rewrite Hfold by done. destruct (fold_left _ edges _). apply IH.
Qed.

(** With no edge into the normalised name nothing is found. *)
Lemma getAncestors_no_match (nodes : list GraphNode.t) (edges : list GraphEdge.t) n :
  (∀ edge, edge ∈ edges → GraphEdge.to_node edge ≠ normalizeName n) →
  getAncestors nodes edges n = [].
Proof.
  intros Hno.
  destruct (getAncestors_spec nodes edges n) as [_ Hspec].
  destruct (getAncestors nodes edges n) as [|m l] eqn:E; [done|].
  assert (Hm : ancestorOf nodes edges n m) by (apply Hspec, list_elem_of_here).
  assert (Hfirst : ∃ m', parentOf nodes edges n m').
  { clear -Hm. induction Hm; eauto. }
  destruct Hfirst as (m' & e & src & He & Hto & _). by destruct (Hno e He).
Qed.

Lemma replaceAll_get (c d : ascii) (s : string) (i : nat) :
  String.get i (replaceAll c d s)
  = (λ a, if Ascii.eqb a c then d else a) <$> String.get i s.
Proof.
  revert i. induction s as [|a s IH]; intros i; [done|].
  destruct i as [|i]; simpl; [done | apply IH].
Qed.

(** [normalizeName] replaces every space and every hyphen by an underscore
    and changes nothing else. *)
Lemma normalizeName_get (s : string) (i : nat) :
  String.get i (normalizeName s) = separatorToUnderscore <$> String.get i s.
Proof.
  unfold normalizeName. rewrite !replaceAll_get.
  destruct (String.get i s) as [a|]; [|done]. simpl. f_equal.
  unfold separatorToUnderscore.
  destruct (Ascii.eqb_spec a " "%char) as [->|Hsp].
  - by rewrite decide_True by (by left).
  - destruct (Ascii.eqb_spec a "-"%char) as [->|Hhy].
    + by rewrite decide_True by (by right).
    + rewrite decide_False; [done|]. by intros [?|?].
Qed.

(** The loop body changes the state exactly when it follows the edge. *)
Lemma visitEdge_follows (nodes : list GraphNode.t) current found work edge :
  visitEdge nodes current (found, work) edge ≠ (found, work) ↔
  GraphEdge.to_node edge = normalizeName current
  ∧ ∃ sourceNode,
      findSource nodes edge = Some sourceNode
      ∧ GraphNode.is_input_node sourceNode = false
      ∧ GraphNode.name sourceNode ∉ found.
Proof.
  unfold visitEdge. split.
  - intros H. case_decide as Hto; [|done]. split; [done|].
    destruct (findSource nodes edge) as [src|]; [|done]. exists src.
    destruct (GraphNode.is_input_node src); simpl in H; [done|].
    case_bool_decide; simpl in H; done.
  - intros (Hto & src & -> & -> & Hnew).
    rewrite decide_True, bool_decide_eq_false_2 by done. simpl.
    intros [= _ Hwork]. apply (f_equal length) in Hwork. simpl in Hwork. lia.
Qed.

(** C10 as stated fails, twice.  The incoming edge of the node named
    ["my node-1"] carries its id ["n1"], which differs from the
    normalisation ["my_node_1"] of its name, yet its ancestors are not
    empty, because the edge into another node whose id is ["my_node_1"] is
    followed.  And where no edge at all carries ["my_node_1"], so that the
    ancestors are empty, a run to the node marks no node pending when the
    node has a recorded result. *)
Lemma ancestry_mismatch_not_empty :
  let v := Sample.node "n1" "my node-1" false in
  (v ∈ Sample.collidingNodes
   ∧ normalizeName (GraphNode.name v) = "my_node_1"
   ∧ (∀ edge, edge ∈ Sample.collidingEdges →
        GraphEdge.to_node edge = GraphNode.id v →
        GraphEdge.to_node edge ≠ normalizeName (GraphNode.name v))
   ∧ (∃ edge, edge ∈ Sample.collidingEdges ∧ GraphEdge.to_node edge = GraphNode.id v)
   ∧ getAncestors Sample.collidingNodes Sample.collidingEdges (GraphNode.name v)
     = ["clean-up"]
   ∧ getAncestors Sample.collidingNodes Sample.collidingEdges (GraphNode.name v) ≠ [])
  ∧ (let c := Sample.rawNameCanvasWithResult in
     let after := tracker (handleRunToNode (GraphNode.name v) "r1" c).1 in
     v ∈ nodesOf c
     ∧ (∀ edge, edge ∈ edgesOf c →
          GraphEdge.to_node edge ≠ normalizeName (GraphNode.name v))
     ∧ (∃ edge, edge ∈ edgesOf c ∧ GraphEdge.to_node edge = GraphNode.id v)
     ∧ getAncestors (nodesOf c) (edgesOf c) (GraphNode.name v) = []
     ∧ pendingRunIds after = pendingRunIds (tracker c)
     ∧ pendingOf after (GraphNode.name v) = []).
Proof.
  intros v. split.
  - split; [apply list_elem_of_here|]. split; [done|]. split; [|split].
    + intros edge _ ->. by vm_compute.
    + exists (Sample.edge "clean_up" "n1"). split; [apply list_elem_of_here | done].
    + split; by vm_compute.
  - intros c after. split; [apply list_elem_of_here|]. split; [|split].
    + intros edge [->|[->|[]%elem_of_nil]%elem_of_cons]%elem_of_cons; by vm_compute.
    + exists (Sample.edge "clean_up" "n1").
      split; [apply list_elem_of_further, list_elem_of_here | done].
    + split; [by vm_compute|]. split; by vm_compute.
Qed.

(** C10, as the program has it.  [normalizeName] replaces every space and every hyphen of
    a name by an underscore and leaves the other characters.  [getAncestors]
    follows an edge backward exactly when the edge's [to_node] is the
    current name normalised that way, and resolves the [from_node] end by
    id; the id of a node that is no edge's source is never consulted.  When
    no edge of the graph has a [to_node] equal to the normalisation of a
    node's name, the node has no ancestors and a run to it marks only the
    node itself pending: no other node's queue changes, and the node itself
    gets the run's entry when it has no recorded result; when it has one, the
    run marks no node. *)
Theorem ancestry_by_normalized_name (c : Canvas) (n runId : string) :
  let nodes := nodesOf c in
  let edges := edgesOf c in
  let after := tracker (handleRunToNode n runId c).1 in
  (∀ s i, String.get i (normalizeName s) = separatorToUnderscore <$> String.get i s)
  ∧ (∀ current found work edge,
       visitEdge nodes current (found, work) edge ≠ (found, work) ↔
       GraphEdge.to_node edge = normalizeName current
       ∧ ∃ sourceNode,
           findSource nodes edge = Some sourceNode
           ∧ GraphNode.is_input_node sourceNode = false
           ∧ GraphNode.name sourceNode ∉ found)
  ∧ (∀ m, m ∈ getAncestors nodes edges n ↔ ancestorOf nodes edges n m)
  ∧ (∀ pre t post i,
       nodes = pre ++ t :: post →
       (∀ edge, edge ∈ edges →
          GraphEdge.from_node edge ≠ GraphNode.id t ∧ GraphEdge.from_node edge ≠ i) →
       getAncestors (pre ++ withId i t :: post) edges n = getAncestors nodes edges n)
  ∧ ((∀ edge, edge ∈ edges → GraphEdge.to_node edge ≠ normalizeName n) →
     getAncestors nodes edges n = []
     ∧ (∀ m, m ≠ n → pendingRunIds after !! m = pendingRunIds (tracker c) !! m)
     ∧ (¬ hasRecordedResult (tracker c) n →
          pendingRunIds after !! n = Some (pendingOf (tracker c) n ++ [runId]))
     ∧ (hasRecordedResult (tracker c) n →
          pendingRunIds after = pendingRunIds (tracker c))).
Proof.
  intros nodes edges after.
  split; [apply normalizeName_get|]. split; [apply visitEdge_follows|].
  split; [apply getAncestors_spec|]. split.
  - intros pre t post i -> Hsrc. unfold getAncestors.
    rewrite !length_app. cbn [length]. f_equal.
    apply visitLoop_ext. intros edge He.
    destruct (Hsrc edge He). by apply findSource_withId.
  - intros Hno. pose proof (getAncestors_no_match nodes edges n Hno) as Hnil.
    split; [done|].
    assert (Hafter : pendingRunIds after
      = fold_left (addPending runId)
          (List.filter (lacksResults (nodeResults (tracker c))) [n])
          (pendingRunIds (tracker c))).
    { unfold after. rewrite handleRunToNode_tracker. simpl.
      unfold nodesToRunOf. fold nodes edges. by rewrite Hnil. }
    rewrite Hafter. simpl. split; [|split].
    + intros m Hne. destruct (lacksResults _ n); simpl; [|done].
      unfold addPending. by rewrite lookup_insert_ne.
    + intros Hnone%lacksResults_unrecorded. rewrite Hnone. simpl.
      unfold addPending. by rewrite lookup_insert_eq.
    + intros Hsome%lacksResults_recorded. by rewrite Hsome.
Qed.

(** ** Snapshot ingestion *)

Lemma deriveNodes_same (v : option CanvasData.t) (held : list GraphNode.t) :
  (deriveNodes v held).1 = (deriveNodes v held).2.
Proof.
  unfold deriveNodes. destruct (v ≫= CanvasData.nodes) as [l|]; [|done].
  by destruct (0 <? length l).
Qed.

Lemma deriveNodes_stale (v : option CanvasData.t) (held : list GraphNode.t) :
  lacksNodes v → deriveNodes v held = (held, held).
Proof. unfold deriveNodes. by intros [-> | ->]. Qed.

Lemma deriveNodes_fresh (v : option CanvasData.t) (held ns : list GraphNode.t) :
  v ≫= CanvasData.nodes = Some ns → ns ≠ [] → deriveNodes v held = (ns, ns).
Proof. unfold deriveNodes. intros -> Hne. by destruct ns. Qed.

Lemma deriveEdges_stale (v : option CanvasData.t) (held : list GraphEdge.t) :
  lacksEdges v → deriveEdges v held = (held, held).
Proof. unfold deriveEdges. by intros [-> | ->]. Qed.

Lemma deriveEdges_fresh (v : option CanvasData.t) (held es : list GraphEdge.t) :
  v ≫= CanvasData.edges = Some es → es ≠ [] → deriveEdges v held = (es, es).
Proof. unfold deriveEdges. intros -> Hne. by destruct es. Qed.

(** C5. Staleness guard: after any earlier values, a value with a non-empty
    node list [ns] followed by any number of values whose node list is empty
    or absent leaves [ns] both as the derived node list and as the held
    last-known-good list; with no such follower this says that a non-empty
    list replaces the held one.  The same holds for edges. *)
Theorem staleness_guard (earlier stale : list (option CanvasData.t))
    (v : option CanvasData.t) :
  (∀ held ns,
     v ≫= CanvasData.nodes = Some ns → ns ≠ [] → Forall lacksNodes stale →
     ingestNodes held (earlier ++ v :: stale) = (ns, ns))
  ∧ (∀ held es,
     v ≫= CanvasData.edges = Some es → es ≠ [] → Forall lacksEdges stale →
     ingestEdges held (earlier ++ v :: stale) = (es, es)).
Proof.
  split.
  - intros held ns Hv Hne Hstale. unfold ingestNodes.
    rewrite fold_left_app. cbn [fold_left].
    rewrite (deriveNodes_fresh v _ ns) by done.
    induction Hstale as [|w stale Hw _ IH]; [done|].
    cbn [fold_left]. by rewrite deriveNodes_stale.
  - intros held es Hv Hne Hstale. unfold ingestEdges.
    rewrite fold_left_app. cbn [fold_left].
    rewrite (deriveEdges_fresh v _ es) by done.
    induction Hstale as [|w stale Hw _ IH]; [done|].
    cbn [fold_left]. by rewrite deriveEdges_stale.
Qed.

(** ** Viewport *)

Section ViewportFacts.
Local Open Scope Q_scope.

Lemma wheelDelta_cases (e : WheelEvent.t) :
  wheelDelta e = 0.97 ∨ wheelDelta e = 1.03.
Proof. unfold wheelDelta. destruct (Qlt_le_dec _ _); [by left | by right]. Qed.

Lemma clamp_bounds (q : Q) : 0.2 <= Qmax 0.2 (Qmin 3 q) ∧ Qmax 0.2 (Qmin 3 q) <= 3.
Proof.
  split; [apply Q.le_max_l|].
  apply Q.max_lub; [lra | apply Q.le_min_l].
Qed.

Lemma handleWheel_scale rect e t :
  Transform.scale (handleWheel rect e t)
  = Qmax 0.2 (Qmin 3 (Transform.scale t * wheelDelta e)).
Proof. done. Qed.

(** C6. Zoom at pointer: for a transform whose scale lies in [0.2, 3], a
    pointer position and either wheel direction, the logical canvas point
    under the pointer before [handleWheel] is the point under the pointer
    after it, exactly in rational arithmetic, also when the new scale is
    clamped; the wheel factor is 0.97 or 1.03. *)
Theorem zoom_at_pointer (rect : Rect.t) (e : WheelEvent.t) (t : Transform.t) :
  0.2 <= Transform.scale t → Transform.scale t <= 3 →
  let px := WheelEvent.clientX e - Rect.left rect in
  let py := WheelEvent.clientY e - Rect.top rect in
  let t' := handleWheel rect e t in
  (canvasPointAt t' px py).1 == (canvasPointAt t px py).1
  ∧ (canvasPointAt t' px py).2 == (canvasPointAt t px py).2
  ∧ (wheelDelta e = 0.97 ∨ wheelDelta e = 1.03)
  ∧ Transform.scale t' == Qmax 0.2 (Qmin 3 (Transform.scale t * wheelDelta e)).
Proof.
  intros Hlo Hhi px py t'.
  pose proof (clamp_bounds (Transform.scale t * wheelDelta e)) as [Hlo' _].
  unfold t', canvasPointAt, handleWheel. cbn [Transform.x Transform.y Transform.scale fst snd].
  fold px py.
  set (s' := Qmax 0.2 (Qmin 3 (Transform.scale t * wheelDelta e))) in *.
  assert (Hs : ¬ Transform.scale t == 0) by lra.
  assert (Hs' : ¬ s' == 0) by lra.
  split; [field; done|]. split; [field; done|].
  split; [apply wheelDelta_cases | reflexivity].
Qed.

End ViewportFacts.

Section ScaleInvariant.
Local Open Scope Q_scope.

Lemma zoomToFit_scale_cases s nodes canvasEl t :
  zoomToFit s nodes canvasEl t = t
  ∨ ∃ q, Transform.scale (zoomToFit s nodes canvasEl t) = Qmax 0.2 (Qmin q 1.5).
Proof.
  unfold zoomToFit. destruct nodes as [|n rest]; [by left|].
  destruct canvasEl as [rect|]; [|by left].
  destruct (boundsOf s (n :: rest)) as [[a|] [b|] [c|] [d|]]; try by left.
  right. by eexists.
Qed.

Lemma zoomToFit_scaleOk s nodes canvasEl t :
  scaleOk t → scaleOk (zoomToFit s nodes canvasEl t).
Proof.
  intros Ht. unfold scaleOk.
  destruct (zoomToFit_scale_cases s nodes canvasEl t) as [-> | [q ->]]; [done|].
  split; [apply Q.le_max_l|].
  apply Q.max_lub; [lra|]. pose proof (Q.le_min_r q 1.5). lra.
Qed.

Lemma zoomIn_scaleOk t : scaleOk t → scaleOk (zoomIn t).
Proof.
  intros [Hlo Hhi]. unfold scaleOk, zoomIn. cbn [Transform.scale]. split.
  - apply Q.min_glb; lra.
  - apply Q.le_min_l.
Qed.

Lemma zoomOut_scaleOk t : scaleOk t → scaleOk (zoomOut t).
Proof.
  intros [Hlo Hhi]. unfold scaleOk, zoomOut. cbn [Transform.scale]. split.
  - apply Q.le_max_l.
  - apply Q.max_lub; [lra|]. apply Qle_shift_div_r; lra.
Qed.

Lemma handleWheel_scaleOk rect e t : scaleOk (handleWheel rect e t).
Proof. unfold scaleOk. rewrite handleWheel_scale. apply clamp_bounds. Qed.

Lemma applyOp_scaleOk (v : Viewport) (op : ViewportOp) :
  scaleOk (transform v) → scaleOk (transform (applyOp v op)).
Proof.
  intros Hv. destruct op; simpl.
  - apply handleWheel_scaleOk.
  - by apply zoomIn_scaleOk.
  - by apply zoomOut_scaleOk.
  - by apply zoomToFit_scaleOk.
  - unfold handleMouseDown. by destruct (_ && _).
  - unfold handleMouseMove. by destruct (isPanning v).
  - done.
Qed.

(** C7. The scale stays in [0.2, 3]: it is 1 initially, every operation on
    the viewport (wheel zoom, zoom in, zoom out, fit to content, and the
    panning handlers) keeps it in the interval when it was there before,
    and so it is in the interval after any sequence of operations. *)
Theorem scale_clamped :
  scaleOk initialTransform
  ∧ (∀ rect e t, scaleOk t → scaleOk (handleWheel rect e t))
  ∧ (∀ t, scaleOk t → scaleOk (zoomIn t))
  ∧ (∀ t, scaleOk t → scaleOk (zoomOut t))
  ∧ (∀ s nodes canvasEl t, scaleOk t → scaleOk (zoomToFit s nodes canvasEl t))
  ∧ (∀ ops, scaleOk (transform (fold_left applyOp ops initialViewport))).
Proof.
  assert (H0 : scaleOk initialTransform) by (split; simpl; lra).
  split; [done|]. split; [intros; apply handleWheel_scaleOk|].
  split; [apply zoomIn_scaleOk|]. split; [apply zoomOut_scaleOk|].
  split; [apply zoomToFit_scaleOk|].
  intros ops. change initialTransform with (transform initialViewport) in H0.
  revert H0. generalize initialViewport.
  induction ops as [|op ops IH]; intros v Hv; [done|].
  simpl. by apply IH, applyOp_scaleOk.
Qed.

End ScaleInvariant.

Section FitToContent.
Local Open Scope Q_scope.

Section Extremes.
Variable f : GraphNode.t → Q.

Lemma accMin_fold (l : list GraphNode.t) (a : Q) :
  ∃ m, fold_left (λ acc n, accMin acc (f n)) l (Some a) = Some m
       ∧ m <= a
       ∧ (∀ n, n ∈ l → m <= f n)
       ∧ (m == a ∨ ∃ n, n ∈ l ∧ f n == m).
Proof.
  revert a. induction l as [|n l IH]; intros a.
  - exists a. repeat split; [lra| |by left]. by intros n ?%elem_of_nil.
  - cbn [fold_left]. change (accMin (Some a) (f n)) with (Some (Qmin a (f n))).
    destruct (IH (Qmin a (f n))) as (m & -> & Hle & Hall & Hwit).
    pose proof (Q.le_min_l a (f n)). pose proof (Q.le_min_r a (f n)).
    exists m. repeat split; [lra| |].
    + intros n' [->|Hn']%elem_of_cons; [lra | by apply Hall].
    + destruct Hwit as [Hm|(n' & Hn' & Hm)].
      * destruct (Q.min_spec a (f n)) as [[_ Hmin]|[_ Hmin]].
        -- left. lra.
        -- right. exists n. split; [apply list_elem_of_here | lra].
      * right. exists n'. split; [by apply list_elem_of_further | done].
Qed.

Lemma accMax_fold (l : list GraphNode.t) (a : Q) :
  ∃ m, fold_left (λ acc n, accMax acc (f n)) l (Some a) = Some m
       ∧ a <= m
       ∧ (∀ n, n ∈ l → f n <= m)
       ∧ (m == a ∨ ∃ n, n ∈ l ∧ f n == m).
Proof.
  revert a. induction l as [|n l IH]; intros a.
  - exists a. repeat split; [lra| |by left]. by intros n ?%elem_of_nil.
  - cbn [fold_left]. change (accMax (Some a) (f n)) with (Some (Qmax a (f n))).
    destruct (IH (Qmax a (f n))) as (m & -> & Hle & Hall & Hwit).
    pose proof (Q.le_max_l a (f n)). pose proof (Q.le_max_r a (f n)).
    exists m. repeat split; [lra| |].
    + intros n' [->|Hn']%elem_of_cons; [lra | by apply Hall].
    + destruct Hwit as [Hm|(n' & Hn' & Hm)].
      * destruct (Q.max_spec a (f n)) as [[_ Hmax]|[_ Hmax]].
        -- right. exists n. split; [apply list_elem_of_here | lra].
        -- left. lra.
      * right. exists n'. split; [by apply list_elem_of_further | done].
Qed.

Lemma accMin_least (n : GraphNode.t) (rest : list GraphNode.t) :
  ∃ m, fold_left (λ acc n, accMin acc (f n)) (n :: rest) None = Some m
       ∧ least f (n :: rest) m.
Proof.
  cbn [fold_left]. change (accMin None (f n)) with (Some (f n)).
  destruct (accMin_fold rest (f n)) as (m & -> & Hle & Hall & Hwit).
  exists m. split; [done|]. split.
  - destruct Hwit as [Hm|(n' & Hn' & Hm)].
    + exists n. split; [apply list_elem_of_here | lra].
    + exists n'. split; [by apply list_elem_of_further | done].
  - intros n' [->|Hn']%elem_of_cons; [done | by apply Hall].
Qed.

Lemma accMax_greatest (n : GraphNode.t) (rest : list GraphNode.t) :
  ∃ m, fold_left (λ acc n, accMax acc (f n)) (n :: rest) None = Some m
       ∧ greatest f (n :: rest) m.
Proof.
  cbn [fold_left]. change (accMax None (f n)) with (Some (f n)).
  destruct (accMax_fold rest (f n)) as (m & -> & Hle & Hall & Hwit).
  exists m. split; [done|]. split.
  - destruct Hwit as [Hm|(n' & Hn' & Hm)].
    + exists n. split; [apply list_elem_of_here | lra].
    + exists n'. split; [by apply list_elem_of_further | done].
  - intros n' [->|Hn']%elem_of_cons; [done | by apply Hall].
Qed.

Lemma least_unique (l : list GraphNode.t) (m m' : Q) :
  least f l m → least f l m' → m == m'.
Proof.
  intros [(n & Hn & Hm) Hall] [(n' & Hn' & Hm') Hall'].
  pose proof (Hall n' Hn'). pose proof (Hall' n Hn). lra.
Qed.

Lemma greatest_unique (l : list GraphNode.t) (m m' : Q) :
  greatest f l m → greatest f l m' → m == m'.
Proof.
  intros [(n & Hn & Hm) Hall] [(n' & Hn' & Hm') Hall'].
  pose proof (Hall n' Hn'). pose proof (Hall' n Hn). lra.
Qed.
End Extremes.

Lemma boundsOf_fold (s : Tracker) (nodes : list GraphNode.t) (b : Bounds.t) :
  fold_left (growBounds s) nodes b =
  Bounds.mk
    (fold_left (λ acc n, accMin acc (GraphNode.x n)) nodes (Bounds.minX b))
    (fold_left (λ acc n, accMin acc (GraphNode.y n)) nodes (Bounds.minY b))
    (fold_left (λ acc n, accMax acc (GraphNode.x n + NODE_WIDTH)) nodes (Bounds.maxX b))
    (fold_left (λ acc n, accMax acc
         (GraphNode.y n + inject_Z (Z.of_nat (getNodeHeight s n)))) nodes (Bounds.maxY b)).
Proof.
  revert b. induction nodes as [|n nodes IH]; intros b; [by destruct b|].
  cbn [fold_left]. by rewrite IH.
Qed.

Lemma boundsOf_boundingBox (s : Tracker) (nodes : list GraphNode.t) :
  nodes ≠ [] →
  ∃ minX minY maxX maxY,
    boundsOf s nodes = Bounds.mk (Some minX) (Some minY) (Some maxX) (Some maxY)
    ∧ boundingBox s nodes minX minY maxX maxY.
Proof.
  destruct nodes as [|n rest]; [done|]. intros _.
  unfold boundsOf. rewrite boundsOf_fold. cbn [Bounds.minX Bounds.minY Bounds.maxX Bounds.maxY].
  destruct (accMin_least GraphNode.x n rest) as (a & -> & Ha).
  destruct (accMin_least GraphNode.y n rest) as (b & -> & Hb).
  destruct (accMax_greatest (λ n, GraphNode.x n + NODE_WIDTH) n rest) as (c & -> & Hc).
  destruct (accMax_greatest
              (λ n, GraphNode.y n + inject_Z (Z.of_nat (getNodeHeight s n))) n rest)
    as (d & -> & Hd).
  by exists a, b, c, d.
Qed.

Lemma getNodeHeight_min (s : Tracker) (n : GraphNode.t) :
  75 <= inject_Z (Z.of_nat (getNodeHeight s n)).
Proof.
  assert (H : (75 <= getNodeHeight s n)%nat).
  { unfold getNodeHeight, HEADER_HEIGHT, HEADER_BORDER, BODY_PADDING_TOP,
      PORT_ROW_HEIGHT, EMBEDDED_COMPONENT_HEIGHT. lia. }
  unfold Qle. simpl. lia.
Qed.

Lemma boundingBox_size (s : Tracker) (nodes : list GraphNode.t) minX minY maxX maxY :
  boundingBox s nodes minX minY maxX maxY →
  220 <= maxX - minX ∧ 75 <= maxY - minY.
Proof.
  intros ([(n & Hn & Hx) Hminx] & [(n' & Hn' & Hy) Hminy] & [_ Hmaxx] & [_ Hmaxy]).
  pose proof (Hmaxx n Hn) as H1. pose proof (Hmaxy n' Hn') as H2. simpl in H1, H2.
  pose proof (getNodeHeight_min s n'). unfold NODE_WIDTH in H1. split; lra.
Qed.

Lemma sample_boundingBox :
  boundingBox initialTracker [Sample.node "A" "A" false] 0 0 220 75.
Proof.
  repeat split; try (exists (Sample.node "A" "A" false); split;
                     [apply list_elem_of_here | by vm_compute]);
    intros n ->%list_elem_of_singleton; by vm_compute.
Qed.

(** C9 as stated fails: for one node of width 220 and height 75 in a
    viewport of 440 by 150 the quotients of the viewport by the content are
    2 and 2, so the stated scale is 1.5, and the program sets 14/15. *)
Lemma fit_scale_not_viewport_quotient :
  let nodes := [Sample.node "A" "A" false] in
  let rect := Rect.mk 0 0 440 150 in
  let scale := Transform.scale (zoomToFit initialTracker nodes (Some rect) initialTransform) in
  boundingBox initialTracker nodes 0 0 220 75
  ∧ scale == 14 / 15
  ∧ ¬ scale == Qmax 0.2 (Qmin (Qmin (440 / 220) (150 / 75)) 1.5).
Proof.
  intros nodes rect scale. split; [apply sample_boundingBox|].
  split; by vm_compute.
Qed.

(** C9, as the program has it.  For a non-empty node list whose union
    bounding box is [contentWidth] wide and [contentHeight] high (both are
    positive) and a bound canvas element of size [width] by [height], the
    fit operation sets the scale to the least of
    [(width - 80) / contentWidth], [(height - 80) / contentHeight] and 1.5,
    raised to 0.2 when it is below: the viewport is taken with a padding of
    40 on every side.  With zero nodes or without a canvas element the
    transform is unchanged. *)
Theorem fit_to_content_scale (s : Tracker) (nodes : list GraphNode.t) (rect : Rect.t)
    (t : Transform.t) (minX minY maxX maxY : Q) :
  nodes ≠ [] →
  boundingBox s nodes minX minY maxX maxY →
  let contentWidth := maxX - minX in
  let contentHeight := maxY - minY in
  0 < contentWidth
  ∧ 0 < contentHeight
  ∧ Transform.scale (zoomToFit s nodes (Some rect) t)
    == Qmax 0.2 (Qmin (Qmin ((Rect.width rect - 80) / contentWidth)
                            ((Rect.height rect - 80) / contentHeight)) 1.5)
  ∧ (∀ canvasEl, zoomToFit s [] canvasEl t = t)
  ∧ zoomToFit s nodes None t = t.
Proof.
  intros Hne Hbox contentWidth contentHeight.
  destruct (boundingBox_size _ _ _ _ _ _ Hbox) as [Hw Hh].
  split; [unfold contentWidth; lra|]. split; [unfold contentHeight; lra|].
  split; [|split; [done | by destruct nodes]].
  destruct (boundsOf_boundingBox s nodes Hne) as (a & b & c & d & Hb & Hbox').
  destruct Hbox as (Hx & Hy & Hx' & Hy'). destruct Hbox' as (Ha & Hb' & Hc & Hd).
  pose proof (least_unique _ _ _ _ Ha Hx) as Ea.
  pose proof (least_unique _ _ _ _ Hb' Hy) as Eb.
  pose proof (greatest_unique _ _ _ _ Hc Hx') as Ec.
  pose proof (greatest_unique _ _ _ _ Hd Hy') as Ed.
  unfold zoomToFit. destruct nodes as [|n rest]; [done|]. rewrite Hb.
  cbn [Transform.scale].
  apply Q.max_compat; [reflexivity|].
  apply Q.min_compat; [|reflexivity].
  unfold contentWidth, contentHeight.
  apply Q.min_compat; apply Qdiv_comp; lra.
Qed.

End FitToContent.

(** ** The properties at sample inputs *)

(** After the grace delay the keys of a finished run are purged, and a late
    duplicate is consumed again: idempotence is a property of deliveries
    inside the grace window. *)
Example duplicate_after_purge :
  let runId := mintRunId "C" "1" "x" in
  let triggered := tracker (handleRunToNode "C" runId Sample.chainCanvas).1 in
  let done := deliver [Sample.completion runId "B" "b"; Sample.completion runId "C" "c"]
                triggered in
  getResultCount done "C" = 1
  ∧ getResultCount (processCompletion (Some (Sample.completion runId "C" "c")) done) "C" = 1
  ∧ getResultCount
      (processCompletion (Some (Sample.completion runId "C" "c")) (fireTimer done)) "C" = 2.
Proof. by vm_compute. Qed.


Lemma history_monotone_witness :
  let ds := [Sample.completion "r1" "C" "first"; Sample.completion "r2" "C" "second"] in
  length (default [] (nodeResults (deliver ds initialTracker) !! "C")) = 2
  ∧ selectedResultIndex (deliver ds initialTracker) !! "C" = Some 1.
Proof.
  intros ds.
  destruct (history_monotone "C" ds) as (_ & Hlen & Hidx).
  - repeat constructor; by eexists.
  - compute_done.
  - split; [exact Hlen | by apply Hidx].
Defined.

Lemma staleness_guard_witness :
  let first := Some (Sample.snapshot Sample.chainNodes Sample.chainEdges) in
  let second := Some (Sample.snapshot [] []) in
  ingestNodes [] [first; second] = (Sample.chainNodes, Sample.chainNodes)
  ∧ ingestEdges [] [first; second; None] = (Sample.chainEdges, Sample.chainEdges).
Proof.
  intros first second. split.
  - apply (proj1 (staleness_guard [] [second] first) [] Sample.chainNodes);
      [reflexivity | discriminate | ].
    constructor; [by right | constructor].
  - apply (proj2 (staleness_guard [] [second; None] first) [] Sample.chainEdges);
      [reflexivity | discriminate | ].
    constructor; [by right|]. constructor; [by left | constructor].
Defined.

Lemma zoom_at_pointer_witness :
  let rect := Rect.mk 10 20 800 600 in
  let e := WheelEvent.mk 410 320 (-100) in
  let t := Transform.mk 30 (-40) 2.95 in
  ((canvasPointAt (handleWheel rect e t) 400 300).1 == (canvasPointAt t 400 300).1)%Q
  ∧ ((canvasPointAt (handleWheel rect e t) 400 300).2 == (canvasPointAt t 400 300).2)%Q
  ∧ (Transform.scale (handleWheel rect e t) == 3)%Q.
Proof.
  intros rect e t.
  destruct (zoom_at_pointer rect e t) as (Hx & Hy & _ & Hs).
  - unfold Qle. simpl. lia.
  - unfold Qle. simpl. lia.
  - split; [exact Hx|]. split; [exact Hy|]. by vm_compute.
Defined.

Lemma scale_clamped_witness :
  scaleOk (zoomIn (Transform.mk 0 0 2.9))
  ∧ scaleOk (zoomOut (Transform.mk 0 0 0.21))
  ∧ scaleOk (transform (fold_left applyOp
               [OpZoomIn; OpZoomIn; OpZoomIn; OpZoomIn; OpZoomIn; OpZoomIn; OpZoomIn;
                OpWheel (Rect.mk 0 0 800 600) (WheelEvent.mk 1 1 (-1));
                OpZoomToFit initialTracker Sample.chainNodes (Some (Rect.mk 0 0 100 100))]
               initialViewport)).
Proof.
  destruct scale_clamped as (_ & _ & Hin & Hout & _ & Hops).
  split; [|split].
  - apply Hin. split; unfold Qle; simpl; lia.
  - apply Hout. split; unfold Qle; simpl; lia.
  - apply Hops.
Defined.

Lemma fit_to_content_scale_witness :
  let nodes := [Sample.node "A" "A" false] in
  let rect := Rect.mk 0 0 440 150 in
  (Transform.scale (zoomToFit initialTracker nodes (Some rect) initialTransform)
   == Qmax 0.2 (Qmin (Qmin ((440 - 80) / (220 - 0)) ((150 - 80) / (75 - 0))) 1.5))%Q.
Proof.
  intros nodes rect.
  destruct (fit_to_content_scale initialTracker nodes rect initialTransform 0 0 220 75)
    as (_ & _ & H & _).
  - discriminate.
  - apply sample_boundingBox.
  - exact H.
Defined.

Lemma ancestry_by_normalized_name_witness :
  let c := mkCanvas None Sample.rawNameNodes Sample.rawNameEdges ∅ initialTracker in
  let after := tracker (handleRunToNode "my node-1" "r1" c).1 in
  normalizeName "my node-1" = "my_node_1"
  ∧ getAncestors (nodesOf c) (edgesOf c) "my node-1" = []
  ∧ pendingRunIds after !! "my node-1" = Some ["r1"]
  ∧ pendingRunIds after !! "clean-up" = None.
Proof.
  intros c after. split; [reflexivity|].
  destruct (ancestry_by_normalized_name c "my node-1" "r1") as (_ & _ & _ & _ & H).
  destruct H as (Hnil & Hother & Hself & _).
  - intros edge [->|[->|[]%elem_of_nil]%elem_of_cons]%elem_of_cons; discriminate.
  - split; [exact Hnil|]. split.
    + apply Hself. intros (results & Hres & _). discriminate.
    + apply (Hother "clean-up"). discriminate.
Defined.

(** * Further properties of the component *)

(** ** Result navigation *)

Lemma selected_positive (s : Tracker) (n : string) :
  0 < default 0 (selectedResultIndex s !! n) →
  selectedResultIndex s !! n = Some (default 0 (selectedResultIndex s !! n)).
Proof. destruct (selectedResultIndex s !! n); simpl; [done | lia]. Qed.

Lemma prevResult_changes (s : Tracker) (n : string) :
  prevDisabled s n = false →
  selectedResultIndex (prevResult n s) !! n
  = Some (default 0 (selectedResultIndex s !! n) - 1)
  ∧ prevResult n s ≠ s.
Proof.
  unfold prevDisabled, prevResult. intros Hd%Nat.eqb_neq.
  destruct (Nat.ltb_spec 0 (default 0 (selectedResultIndex s !! n))) as [Hpos|]; [|lia].
  simpl. rewrite lookup_insert_eq. split; [done|].
  intros Heq. apply (f_equal (λ t, selectedResultIndex t !! n)) in Heq.
  simpl in Heq. rewrite lookup_insert_eq, (selected_positive s n Hpos) in Heq.
  injection Heq. lia.
Qed.

Lemma nextResult_changes (s : Tracker) (n : string) :
  nextDisabled s n = false →
  selectedResultIndex (nextResult n s) !! n
  = Some (S (default 0 (selectedResultIndex s !! n)))
  ∧ nextResult n s ≠ s.
Proof.
  unfold nextDisabled, nextResult. intros Hd%Nat.leb_gt.
  destruct (Nat.ltb_spec (S (default 0 (selectedResultIndex s !! n)))
              (getResultCount s n)) as [Hlt|]; [|lia].
  simpl. rewrite lookup_insert_eq. split; [f_equal; lia|].
  intros Heq. apply (f_equal (λ t, selectedResultIndex t !! n)) in Heq.
  simpl in Heq. rewrite lookup_insert_eq in Heq.
  destruct (selectedResultIndex s !! n); simpl in Heq; [|done].
  injection Heq. lia.
Qed.

Lemma prevResult_disabled (s : Tracker) (n : string) :
  prevDisabled s n = true → prevResult n s = s.
Proof.
  unfold prevDisabled, prevResult. intros ->%Nat.eqb_eq. done.
Qed.

Lemma nextResult_disabled (s : Tracker) (n : string) :
  nextDisabled s n = true → nextResult n s = s.
Proof.
  unfold nextDisabled, nextResult. intros Hd%Nat.leb_le.
  destruct (Nat.ltb_spec (S (default 0 (selectedResultIndex s !! n)))
              (getResultCount s n)); [lia | done].
Qed.

(** X1. The result selector and its handlers agree: [prevResult] changes the
    tracker exactly when the previous button is enabled, and then selects the
    index before the current one; [nextResult] changes it exactly when the
    next button is enabled, and then selects the index after the current one.
    Neither touches the selection of another node nor any history. *)
Theorem navigation_matches_buttons (s : Tracker) (n : string) :
  let current := default 0 (selectedResultIndex s !! n) in
  (prevDisabled s n = true ↔ prevResult n s = s)
  ∧ (nextDisabled s n = true ↔ nextResult n s = s)
  ∧ default 0 (selectedResultIndex (prevResult n s) !! n) = current - 1
  ∧ default 0 (selectedResultIndex (nextResult n s) !! n)
    = (if nextDisabled s n then current else S current)
  ∧ (∀ m, m ≠ n →
       selectedResultIndex (prevResult n s) !! m = selectedResultIndex s !! m
       ∧ selectedResultIndex (nextResult n s) !! m = selectedResultIndex s !! m)
  ∧ nodeResults (prevResult n s) = nodeResults s
  ∧ nodeResults (nextResult n s) = nodeResults s.
Proof.
  intros current. repeat split.
  - apply prevResult_disabled.
  - intros Heq. destruct (prevDisabled s n) eqn:Hd; [done|].
    by destruct (prevResult_changes s n Hd).
  - apply nextResult_disabled.
  - intros Heq. destruct (nextDisabled s n) eqn:Hd; [done|].
    by destruct (nextResult_changes s n Hd).
  - destruct (prevDisabled s n) eqn:Hd.
    + rewrite prevResult_disabled by done.
      unfold prevDisabled in Hd. apply Nat.eqb_eq in Hd. unfold current. lia.
    + destruct (prevResult_changes s n Hd) as [-> _]. done.
  - destruct (nextDisabled s n) eqn:Hd.
    + by rewrite nextResult_disabled.
    + destruct (nextResult_changes s n Hd) as [-> _]. done.
  - unfold prevResult. destruct (0 <? _); [|done]. simpl. by rewrite lookup_insert_ne.
  - unfold nextResult. destruct (_ <? _); [|done]. simpl. by rewrite lookup_insert_ne.
  - unfold prevResult. by destruct (0 <? _).
  - unfold nextResult. by destruct (_ <? _).
Qed.

(** X2. Stepping back and then forward, or forward and then back, returns to
    the selected index when the first step is possible and the index lies in
    the history. *)
Theorem navigation_round_trip (s : Tracker) (n : string) :
  let current := default 0 (selectedResultIndex s !! n) in
  (0 < current → current < getResultCount s n →
     default 0 (selectedResultIndex (nextResult n (prevResult n s)) !! n) = current)
  ∧ (S current < getResultCount s n →
     default 0 (selectedResultIndex (prevResult n (nextResult n s)) !! n) = current).
Proof.
  intros current. split.
  - intros Hpos Hlt.
    assert (Hd : prevDisabled s n = false).
    { unfold prevDisabled. apply Nat.eqb_neq. unfold current in Hpos. lia. }
    destruct (prevResult_changes s n Hd) as [Hp _].
    assert (Hd' : nextDisabled (prevResult n s) n = false).
    { unfold nextDisabled. rewrite Hp. simpl. apply Nat.leb_gt.
      unfold getResultCount, prevResult. destruct (0 <? _); simpl;
        unfold current, getResultCount in *; lia. }
    destruct (nextResult_changes _ n Hd') as [-> _]. rewrite Hp. simpl.
    unfold current in *. lia.
  - intros Hlt.
    assert (Hd : nextDisabled s n = false).
    { unfold nextDisabled. apply Nat.leb_gt. done. }
    destruct (nextResult_changes s n Hd) as [Hp _].
    assert (Hd' : prevDisabled (nextResult n s) n = false).
    { unfold prevDisabled. rewrite Hp. done. }
    destruct (prevResult_changes _ n Hd') as [-> _]. rewrite Hp. simpl.
    unfold current. lia.
Qed.

(** ** Histories and selections over the life of a canvas *)

Lemma runToNode_tracker nodeName now rand (c : Canvas) :
  tracker (runToNode nodeName now rand c)
  = tracker (handleRunToNode nodeName (mintRunId nodeName now rand) c).1.
Proof. done. Qed.

(** What one completion does to the history and the selection. *)
Lemma processCompletion_history (v : option CanvasData.t) (s : Tracker) :
  (nodeResults (processCompletion v s) = nodeResults s
   ∧ selectedResultIndex (processCompletion v s) = selectedResultIndex s)
  ∨ ∃ node snap,
      nodeResults (processCompletion v s)
      = <[node := historyOf s node ++ [snap]]> (nodeResults s)
      ∧ selectedResultIndex (processCompletion v s)
        = <[node := length (historyOf s node)]> (selectedResultIndex s).
Proof.
  destruct v as [data|]; [|by left].
  destruct (truthy (CanvasData.run_id data)) as [runId|] eqn:Hr;
    [|left; rewrite processCompletion_unrecognised; naive_solver].
  destruct (truthy (CanvasData.completed_node data)) as [node|] eqn:Hn;
    [|left; rewrite processCompletion_unrecognised; naive_solver].
  destruct (decide (completionKey runId node ∈ globalProcessedSet s)) as [Hin|Hout].
  - left. by rewrite (processCompletion_consumed data s runId node).
  - destruct (processCompletion_fresh data s runId node Hr Hn Hout) as (_ & _ & Hres & Hsel).
    destruct (resultSnapshotOf data node) as [snap|]; [|by left].
    right. by exists node, snap.
Qed.

Lemma selectionOk_processCompletion (v : option CanvasData.t) (s : Tracker) :
  selectionOk s → selectionOk (processCompletion v s).
Proof.
  intros Hok.
  destruct (processCompletion_history v s) as [[Hres Hsel]|(node & snap & Hres & Hsel)];
    intros m; rewrite Hres, Hsel; [apply Hok|].
  destruct (decide (m = node)) as [->|Hne].
  - rewrite !lookup_insert_eq. split; [by destruct (historyOf s node)|].
    eexists. split; [done|]. rewrite length_app. simpl. lia.
  - rewrite !lookup_insert_ne by done. apply Hok.
Qed.

Lemma selectionOk_prevResult (n : string) (s : Tracker) :
  selectionOk s → selectionOk (prevResult n s).
Proof.
  intros Hok. destruct (prevDisabled s n) eqn:Hd; [by rewrite prevResult_disabled|].
  destruct (prevResult_changes s n Hd) as [Hp _].
  assert (Hres : nodeResults (prevResult n s) = nodeResults s).
  { unfold prevResult. by destruct (0 <? _). }
  intros m. rewrite Hres. destruct (decide (m = n)) as [->|Hne].
  - rewrite Hp. specialize (Hok n).
    destruct (nodeResults s !! n) as [results|].
    + destruct Hok as (Hne & idx & Hidx & Hlt). split; [done|].
      eexists. split; [done|]. rewrite Hidx. simpl. lia.
    + unfold prevDisabled in Hd. rewrite Hok in Hd. done.
  - specialize (Hok m). unfold prevResult. destruct (0 <? _); [|done]. simpl.
    by rewrite lookup_insert_ne.
Qed.

Lemma selectionOk_nextResult (n : string) (s : Tracker) :
  selectionOk s → selectionOk (nextResult n s).
Proof.
  intros Hok. destruct (nextDisabled s n) eqn:Hd; [by rewrite nextResult_disabled|].
  destruct (nextResult_changes s n Hd) as [Hp _].
  assert (Hres : nodeResults (nextResult n s) = nodeResults s).
  { unfold nextResult. by destruct (_ <? _). }
  intros m. rewrite Hres. destruct (decide (m = n)) as [->|Hne].
  - rewrite Hp. specialize (Hok n).
    unfold nextDisabled, getResultCount in Hd. apply Nat.leb_gt in Hd.
    destruct (nodeResults s !! n) as [results|]; simpl in Hd; [|lia].
    destruct Hok as (Hne & idx & Hidx & Hlt). split; [done|].
    eexists. split; [done|]. lia.
  - specialize (Hok m). unfold nextResult. destruct (_ <? _); [|done]. simpl.
    by rewrite lookup_insert_ne.
Qed.

Lemma selectionOk_step (c : Canvas) (ev : CanvasEvent) :
  selectionOk (tracker c) → selectionOk (tracker (canvasStep c ev)).
Proof.
  intros Hok. destruct ev; simpl; try done.
  - by apply selectionOk_processCompletion.
  - rewrite runToNode_tracker, handleRunToNode_tracker.
    intros m. apply Hok.
  - unfold fireTimer. destruct (timers (tracker c)) as [|[runId executed] rest]; [done|].
    intros m. apply Hok.
  - by apply selectionOk_prevResult.
  - by apply selectionOk_nextResult.
Qed.

Lemma selectionOk_reachable (events : list CanvasEvent) (c : Canvas) :
  selectionOk (tracker c) → selectionOk (tracker (runEvents events c)).
Proof.
  revert c. induction events as [|ev events IH]; intros c Hok; [done|].
  simpl. by apply IH, selectionOk_step.
Qed.

(** X3. In every state the canvas reaches from its initial state, by values
    arriving, runs being triggered, purge timers firing, result navigation
    and edits, a node has a selected index exactly when it has a history,
    the history is not empty and the selected index points into it; the
    components rendered for such a node are the selected snapshot, never the
    live value of the node. *)
Theorem selection_always_valid (events : list CanvasEvent) :
  let s := tracker (runEvents events initialCanvas) in
  selectionOk s
  ∧ (∀ nodeName, lacksResults (nodeResults s) nodeName = true
                 ↔ selectedResultIndex s !! nodeName = None)
  ∧ (∀ node results,
       nodeResults s !! GraphNode.name node = Some results →
       ∃ idx snap,
         selectedResultIndex s !! GraphNode.name node = Some idx
         ∧ results !! idx = Some snap
         ∧ S idx ≤ getResultCount s (GraphNode.name node)
         ∧ getSelectedResults s node = snap).
Proof.
  intros s.
  assert (Hok : selectionOk s).
  { apply selectionOk_reachable. intros m. simpl. by rewrite !lookup_empty. }
  split; [done|]. split.
  - intros m. specialize (Hok m). unfold lacksResults.
    destruct (nodeResults s !! m) as [results|]; [|done].
    destruct Hok as (Hne & idx & -> & _). destruct results; [done|]. simpl. split; done.
  - intros node results Hres. specialize (Hok (GraphNode.name node)).
    rewrite Hres in Hok. destruct Hok as (Hne & idx & Hidx & Hlt).
    destruct (lookup_lt_is_Some_2 results idx Hlt) as [snap Hsnap].
    exists idx, snap. split; [done|]. split; [done|]. split.
    + unfold getResultCount. rewrite Hres. simpl. lia.
    + unfold getSelectedResults. rewrite Hres, Hidx. simpl. rewrite Hsnap. simpl.
      destruct results; [done|]. done.
Qed.

(** One event leaves every history as it is or appends one snapshot to it. *)
Lemma history_step (c : Canvas) (ev : CanvasEvent) (n : string) :
  historyOf (tracker (canvasStep c ev)) n = historyOf (tracker c) n
  ∨ ∃ snap, historyOf (tracker (canvasStep c ev)) n = historyOf (tracker c) n ++ [snap].
Proof.
  destruct ev; simpl; try by left.
  - unfold historyOf.
    destruct (processCompletion_history v (tracker c)) as [[-> _]|(node & snap & -> & _)];
      [by left|].
    destruct (decide (n = node)) as [->|Hne].
    + right. exists snap. by rewrite lookup_insert_eq.
    + left. by rewrite lookup_insert_ne.
  - left. by rewrite runToNode_tracker, handleRunToNode_tracker.
  - left. unfold fireTimer. by destruct (timers (tracker c)) as [|[runId executed] rest].
  - left. unfold historyOf, prevResult. by destruct (0 <? _).
  - left. unfold historyOf, nextResult. by destruct (_ <? _).
Qed.

(** X4. Histories are append-only: whatever events follow, the history a node
    has is a prefix of the history it has afterwards, and one event appends at
    most one snapshot; nothing is ever trimmed or rewritten. *)
Theorem history_append_only (c : Canvas) (events : list CanvasEvent) (n : string) :
  historyOf (tracker c) n `prefix_of` historyOf (tracker (runEvents events c)) n
  ∧ length (historyOf (tracker (runEvents events c)) n)
    ≤ length (historyOf (tracker c) n) + length events.
Proof.
  revert c. induction events as [|ev events IH]; intros c.
  - simpl. split; [done | lia].
  - simpl. destruct (IH (canvasStep c ev)) as [Hpre Hlen].
    destruct (history_step c ev n) as [Heq|[snap Heq]]; rewrite Heq in Hpre, Hlen.
    + split; [done | lia].
    + split; [|rewrite length_app in Hlen; simpl in Hlen; lia].
      etrans; [|exact Hpre]. by apply prefix_app_r.
Qed.


(** ** The life of a run record *)

Lemma forallb_bool_decide {A} (P : A → Prop) `{∀ x, Decision (P x)} (l : list A) :
  forallb (λ x, bool_decide (P x)) l = true ↔ Forall P l.
Proof.
  induction l as [|a l IH]; simpl.
  - split; [constructor | done].
  - rewrite andb_true_iff, bool_decide_eq_true, IH, Forall_cons. done.
Qed.

(** What a notification consumed for the first time does to the run records
    and the timers. *)
Lemma processCompletion_runs (data : CanvasData.t) (s : Tracker) runId completedNode :
  truthy (CanvasData.run_id data) = Some runId →
  truthy (CanvasData.completed_node data) = Some completedNode →
  completionKey runId completedNode ∉ globalProcessedSet s →
  let s' := processCompletion (Some data) s in
  (runIdToNodes s', timers s') =
  match runIdToNodes s !! runId with
  | Some executedNodes =>
      if forallb (λ n, bool_decide
                   (completionKey runId n
                    ∈ {[completionKey runId completedNode]} ∪ globalProcessedSet s))
           executedNodes
      then (delete runId (runIdToNodes s), timers s ++ [(runId, executedNodes)])
      else (runIdToNodes s, timers s)
  | None => (runIdToNodes s, timers s)
  end.
Proof.
  intros Hr Hn Hout. unfold processCompletion. rewrite Hr, Hn.
  rewrite decide_False by done.
  destruct (runIdToNodes s !! runId) as [executed|];
    [destruct (forallb _ executed)|];
    by destruct (resultSnapshotOf data completedNode).
Qed.

Lemma deliver_processed runId (ds : list CanvasData.t) (s : Tracker) m :
  Forall (λ d, truthy (CanvasData.run_id d) = Some runId) ds →
  completionKey runId m ∈ globalProcessedSet (deliver ds s) ↔
  completionKey runId m ∈ globalProcessedSet s ∨ m ∈ completedNodes ds.
Proof.
  revert s. induction ds as [|d ds IH]; intros s Hall.
  - change (deliver [] s) with s. unfold completedNodes. simpl.
    rewrite elem_of_nil. tauto.
  - apply Forall_cons in Hall as [Hr Hall].
    change (deliver (d :: ds) s) with (deliver ds (processCompletion (Some d) s)).
    rewrite IH by done. rewrite (processCompletion_processed d s runId m Hr).
    unfold completedNodes. cbn [omap list_omap].
    destruct (truthy (CanvasData.completed_node d)) as [node|].
    + rewrite elem_of_cons. split; [|naive_solver].
      intros [[?|[= ->]]|?]; auto.
    + split; [|naive_solver]. intros [[?|?]|?]; auto; done.
Qed.

Lemma deliver_snoc (ds : list CanvasData.t) (d : CanvasData.t) (s : Tracker) :
  deliver (ds ++ [d]) s = processCompletion (Some d) (deliver ds s).
Proof. unfold deliver. by rewrite fold_left_app. Qed.

Lemma completedNodes_snoc (ds : list CanvasData.t) (d : CanvasData.t) :
  completedNodes (ds ++ [d])
  = completedNodes ds ++ option_list (truthy (CanvasData.completed_node d)).
Proof.
  unfold completedNodes. rewrite omap_app. simpl.
  by destruct (truthy (CanvasData.completed_node d)).
Qed.

(** The run record and the timers after notifications of one run. *)
Lemma deliver_run_record runId nodes (ds : list CanvasData.t) (s : Tracker) :
  runIdToNodes s !! runId = Some nodes →
  (∀ m, completionKey runId m ∉ globalProcessedSet s) →
  Forall (λ d, truthy (CanvasData.run_id d) = Some runId) ds →
  let retired := Forall (.∈ completedNodes ds) nodes ∧ completedNodes ds ≠ [] in
  runIdToNodes (deliver ds s) !! runId
  = (if decide retired then None else Some nodes)
  ∧ timers (deliver ds s)
    = timers s ++ (if decide retired then [(runId, nodes)] else [])
  ∧ ∀ other, other ≠ runId →
      runIdToNodes (deliver ds s) !! other = runIdToNodes s !! other.
Proof.
  intros Hrun Hfresh. induction ds as [|d ds IH] using rev_ind; intros Hall retired.
  - change (deliver [] s) with s. unfold retired.
    rewrite !decide_False by (by intros [_ ?]). by rewrite app_nil_r.
  - apply Forall_app in Hall as [Hall [Hr _]%Forall_cons].
    destruct (IH Hall) as (IHrun & IHtimers & IHother). clear IH.
    set (before := Forall (.∈ completedNodes ds) nodes ∧ completedNodes ds ≠ []) in *.
    unfold retired. rewrite deliver_snoc, completedNodes_snoc.
    destruct (truthy (CanvasData.completed_node d)) as [m|] eqn:Hn.
    2:{ change (option_list None) with (@nil string). rewrite app_nil_r. fold before.
        rewrite processCompletion_unrecognised by naive_solver. done. }
    change (option_list (Some m)) with [m].
    pose proof (deliver_processed runId ds s m Hall) as Hkey.
    assert (Hgrow : ∀ n, n ∈ completedNodes ds → n ∈ completedNodes ds ++ [m]).
    { intros n ?. apply elem_of_app. by left. }
    assert (Hnonempty : completedNodes ds ++ [m] ≠ []) by by destruct (completedNodes ds).
    destruct (decide (m ∈ completedNodes ds)) as [Hseen|Hnew].
    + rewrite (processCompletion_consumed d _ runId m) by (try done; apply Hkey; by right).
      assert (Hsame : before ↔
                Forall (.∈ completedNodes ds ++ [m]) nodes ∧ completedNodes ds ++ [m] ≠ []).
      { unfold before. rewrite !Forall_forall. split.
        - intros [H _]. split; [|done]. intros n Hn'. by apply Hgrow, H.
        - intros [H _]. split; [|by intros E; rewrite E in Hseen; apply elem_of_nil in Hseen].
          intros n Hn'. apply H in Hn'.
          apply elem_of_app in Hn' as [?| ->%list_elem_of_singleton]; done. }
      rewrite IHrun, IHtimers. split; [|split; [|done]];
        repeat case_decide; try done; exfalso; tauto.
    + assert (Hout : completionKey runId m ∉ globalProcessedSet (deliver ds s)).
      { rewrite Hkey. intros [?|?]; [by eapply Hfresh | done]. }
      pose proof (processCompletion_runs d _ runId m Hr Hn Hout) as Hstep.
      cbv zeta in Hstep. rewrite IHrun in Hstep.
      destruct (decide before) as [Hb|Hb].
      * apply pair_equal_spec in Hstep as [Hruns Htimers]. rewrite Hruns, Htimers, IHrun, IHtimers.
        assert (Hafter : Forall (.∈ completedNodes ds ++ [m]) nodes
                         ∧ completedNodes ds ++ [m] ≠ []).
        { split; [|done]. destruct Hb as [Hb _].
          eapply Forall_impl; [exact Hb|]. apply Hgrow. }
        by rewrite !decide_True by done.
      * assert (Hcheck :
          forallb (λ n, bool_decide
                     (completionKey runId n
                      ∈ {[completionKey runId m]} ∪ globalProcessedSet (deliver ds s)))
            nodes = true
          ↔ Forall (.∈ completedNodes ds ++ [m]) nodes).
        { rewrite forallb_bool_decide. apply Forall_proper; [|done]. intros n.
          rewrite elem_of_union, elem_of_singleton, elem_of_app, list_elem_of_singleton.
          rewrite (deliver_processed runId ds s n Hall). split.
          - intros [->%completionKey_inj_node|[?|?]]; [by right| |by left].
            by destruct (Hfresh n).
          - intros [?| ->]; [right; by right | by left]. }
        destruct (forallb _ nodes) eqn:Hcheckb.
        -- apply pair_equal_spec in Hstep as [Hruns Htimers]. rewrite Hruns, Htimers, IHtimers.
           rewrite !decide_True by (split; [by apply Hcheck | done]).
           rewrite lookup_delete_eq, app_nil_r. split; [done|]. split; [done|].
           intros other Hne. rewrite lookup_delete_ne by done. by apply IHother.
        -- apply pair_equal_spec in Hstep as [Hruns Htimers]. rewrite Hruns, Htimers, IHrun, IHtimers.
           assert (Hafter : ¬ (Forall (.∈ completedNodes ds ++ [m]) nodes
                               ∧ completedNodes ds ++ [m] ≠ [])).
           { intros [H _]. apply Hcheck in H. congruence. }
           by rewrite !decide_False by done.
Qed.

(** X6. A run record lives until every node the run executes has reported.
    For a run whose keys are all unconsumed, after any notifications of the
    run the record is deleted exactly when each executing node is named by one
    of them (and at least one was recognised); then one purge timer is
    scheduled, and when it fires the keys of the executing nodes leave the
    processed set.  Before that the record and the timers are unchanged.
    Records of other runs are never touched. *)
Theorem run_record_retired (s : Tracker) (runId : string) (nodes : list string)
    (ds : list CanvasData.t) :
  runIdToNodes s !! runId = Some nodes →
  (∀ m, completionKey runId m ∉ globalProcessedSet s) →
  Forall (λ d, truthy (CanvasData.run_id d) = Some runId) ds →
  let s' := deliver ds s in
  let reported := Forall (.∈ completedNodes ds) nodes ∧ completedNodes ds ≠ [] in
  (reported →
     runIdToNodes s' !! runId = None
     ∧ timers s' = timers s ++ [(runId, nodes)]
     ∧ (timers s = [] →
        timers (fireTimer s') = []
        ∧ ∀ m, m ∈ nodes → completionKey runId m ∉ globalProcessedSet (fireTimer s')))
  ∧ (¬ reported → runIdToNodes s' !! runId = Some nodes ∧ timers s' = timers s)
  ∧ (∀ other, other ≠ runId → runIdToNodes s' !! other = runIdToNodes s !! other).
Proof.
  intros Hrun Hfresh Hall s' reported.
  destruct (deliver_run_record runId nodes ds s Hrun Hfresh Hall)
    as (Hrec & Htimers & Hother).
  change (deliver ds s) with s' in Hrec, Htimers, Hother.
  destruct (decide (Forall (.∈ completedNodes ds) nodes ∧ completedNodes ds ≠ []))
    as [Hd|Hd].
  - split; [|split; [by intros ? | done]]. intros _.
    split; [done|]. split; [done|]. intros Hnone.
    unfold fireTimer. rewrite Htimers, Hnone. simpl. split; [done|].
    intros m Hm [_ Hnot]%elem_of_difference. apply Hnot.
    apply elem_of_list_to_set, list_elem_of_fmap. by exists m.
  - rewrite app_nil_r in Htimers. split; [by intros ?|]. by split.
Qed.

(** ** Entered values *)

(** X7. An entered input value is what the widget shows: after
    [handleInputChange] the component value of that node and port is the
    entered value, whatever the component's own value, and the value shown
    for any other node or port is unchanged.  Without an entry the widget
    shows the component's own value, or the empty string when it has
    none. *)
Theorem input_change_round_trip (c : Canvas) (nodeId portName entered : string) :
  let c' := canvasStep c (EvInputChange nodeId portName entered) in
  (∀ node comp,
     GraphNode.id node = nodeId → GradioComponentData.port_name comp = portName →
     getComponentValue (inputValues c') node comp = entered)
  ∧ (∀ node comp,
     GraphNode.id node ≠ nodeId ∨ GradioComponentData.port_name comp ≠ portName →
     getComponentValue (inputValues c') node comp
     = getComponentValue (inputValues c) node comp)
  ∧ (∀ node comp,
     inputValues c !! GraphNode.id node = None →
     getComponentValue (inputValues c) node comp
     = default EmptyString (GradioComponentData.value comp)).
Proof.
  intros c'. simpl. unfold handleInputChange. repeat split.
  - intros node comp <- <-. unfold getComponentValue.
    rewrite lookup_insert_eq. simpl. by rewrite lookup_insert_eq.
  - intros node comp Hne. unfold getComponentValue.
    destruct (decide (GraphNode.id node = nodeId)) as [<-|Hid].
    + destruct Hne as [?|Hport]; [done|].
      rewrite lookup_insert_eq. simpl. rewrite lookup_insert_ne by done.
      by destruct (inputValues c !! GraphNode.id node).
    + by rewrite lookup_insert_ne.
  - intros node comp Hnone. unfold getComponentValue. by rewrite Hnone.
Qed.

(** ** Map items *)

(** X9. The visible map items are always a prefix of the node's items: all of
    them when the node is expanded or has at most three, the first three
    otherwise.  Expanding a collapsed node shows every item, toggling twice
    shows what was shown, and toggling one node does not change what another
    shows. *)
Theorem visible_map_items (expanded : gmap string bool) (n : string)
    (map_items : option (list MapItem.t)) :
  let items := default [] map_items in
  let visible := getVisibleMapItems expanded n map_items in
  visible `prefix_of` items
  ∧ length visible
    = (if default false (expanded !! n) then length items else length items `min` 3)
  ∧ (default false (expanded !! n) = false →
     getVisibleMapItems (toggleMapExpand n expanded) n map_items = items)
  ∧ getVisibleMapItems (toggleMapExpand n (toggleMapExpand n expanded)) n map_items
    = visible
  ∧ (∀ m other, m ≠ n →
     getVisibleMapItems (toggleMapExpand n expanded) m other
     = getVisibleMapItems expanded m other).
Proof.
  intros items visible. unfold visible, getVisibleMapItems, toggleMapExpand.
  fold items. repeat split.
  - destruct (default false (expanded !! n)); simpl; [done|].
    destruct (Nat.leb_spec (length items) 3); [done|].
    exists (drop 3 items). by rewrite take_drop.
  - destruct (default false (expanded !! n)); simpl; [done|].
    destruct (Nat.leb_spec (length items) 3); [lia|]. rewrite length_take. lia.
  - intros ->. by rewrite lookup_insert_eq.
  - rewrite !lookup_insert_eq. simpl. by rewrite negb_involutive.
  - intros m other Hne. by rewrite lookup_insert_ne.
Qed.

(** ** Node lookup *)

Lemma find_app_first {A} (p : A → bool) (l k : list A) :
  List.find p (l ++ k) = match List.find p l with
                         | Some x => Some x
                         | None => List.find p k
                         end.
Proof. induction l as [|a l IH]; simpl; [done|]. by destruct (p a). Qed.

Lemma nodeMapOf_fold (nodes : list GraphNode.t) (map : gmap string GraphNode.t) i :
  fold_left (λ map node, <[GraphNode.id node := node]> map) nodes map !! i
  = match List.find (λ n, bool_decide (GraphNode.id n = i)) (rev nodes) with
    | Some node => Some node
    | None => map !! i
    end.
Proof.
  revert map. induction nodes as [|a nodes IH]; intros map; [done|].
  cbn [fold_left rev]. rewrite IH, find_app_first.
  destruct (List.find _ (rev nodes)); [done|]. simpl.
  case_bool_decide as Ha.
  - by rewrite <-Ha, lookup_insert_eq.
  - by rewrite lookup_insert_ne.
Qed.

Lemma find_unique_id (nodes : list GraphNode.t) (node : GraphNode.t) :
  NoDup (GraphNode.id <$> nodes) → node ∈ nodes →
  List.find (λ n, bool_decide (GraphNode.id n = GraphNode.id node)) nodes = Some node.
Proof.
  induction nodes as [|a nodes IH]; intros Hnd Hin; [by apply elem_of_nil in Hin|].
  rewrite fmap_cons in Hnd. apply NoDup_cons in Hnd as [Ha Hnd]. simpl.
  apply elem_of_cons in Hin as [->|Hin].
  - by rewrite bool_decide_eq_true_2.
  - rewrite bool_decide_eq_false_2; [by apply IH|].
    intros Heq. apply Ha. rewrite Heq. by apply list_elem_of_fmap_2.
Qed.

Lemma rev_is_reverse {A} (l : list A) : rev l = reverse l.
Proof. unfold reverse. by rewrite rev_alt. Qed.

Lemma find_rev_unique (nodes : list GraphNode.t) i :
  NoDup (GraphNode.id <$> nodes) →
  List.find (λ n, bool_decide (GraphNode.id n = i)) (rev nodes)
  = List.find (λ n, bool_decide (GraphNode.id n = i)) nodes.
Proof.
  intros Hnd.
  destruct (List.find _ nodes) as [node|] eqn:Hfind.
  - apply find_some in Hfind as [Hin Hid]. apply bool_decide_eq_true in Hid. subst i.
    apply find_unique_id.
    + by rewrite rev_is_reverse, fmap_reverse, reverse_Permutation.
    + rewrite rev_is_reverse, elem_of_reverse. by apply list_elem_of_In.
  - destruct (List.find _ (rev nodes)) as [node|] eqn:Hrev; [|done].
    apply find_some in Hrev as [Hin Hid].
    apply in_rev in Hin. apply (find_none _ _ Hfind) in Hin. congruence.
Qed.

(** X10. The node map of the edge router keeps, for an id, the last node with
    that id, while the ancestor lookup takes the first; when the node ids are
    pairwise distinct both resolve every edge end to the same node. *)
Theorem nodeMap_agrees_with_find (nodes : list GraphNode.t) :
  (∀ i, nodeMapOf nodes !! i
        = List.find (λ n, bool_decide (GraphNode.id n = i)) (rev nodes))
  ∧ (NoDup (GraphNode.id <$> nodes) →
     (∀ edge, nodeMapOf nodes !! GraphEdge.from_node edge = findSource nodes edge)
     ∧ ∀ node, node ∈ nodes → nodeMapOf nodes !! GraphNode.id node = Some node).
Proof.
  assert (Hlast : ∀ i, nodeMapOf nodes !! i
            = List.find (λ n, bool_decide (GraphNode.id n = i)) (rev nodes)).
  { intros i. unfold nodeMapOf. rewrite nodeMapOf_fold, lookup_empty.
    by destruct (List.find _ _). }
  split; [done|]. intros Hnd. split.
  - intros edge. rewrite Hlast. unfold findSource. by apply find_rev_unique.
  - intros node Hin. rewrite Hlast, find_rev_unique by done. by apply find_unique_id.
Qed.

(** ** Port rows and edge paths *)

Lemma findIndex_Some {A} (p : A → bool) (l : list A) (i : nat) :
  findIndex p l = Some i ↔
  (∃ x, l !! i = Some x ∧ p x = true)
  ∧ ∀ j y, j < i → l !! j = Some y → p y = false.
Proof.
  revert i. induction l as [|a l IH]; intros i; simpl.
  - split; [done|]. by intros [(x & ? & _) _].
  - destruct (p a) eqn:Ha.
    + split.
      * intros [= <-]. split; [by exists a|]. intros; lia.
      * intros [(x & Hx & Hpx) Hfirst]. destruct i as [|i]; [done|].
        specialize (Hfirst 0 a ltac:(lia) eq_refl). congruence.
    + destruct (findIndex p l) as [k|] eqn:Hk; simpl.
      * split.
        -- intros [= <-]. destruct (proj1 (IH k) eq_refl) as [Hx Hfirst].
           split; [done|]. intros [|j] y Hj Hy; [by injection Hy as <-|].
           apply (Hfirst j); [lia | done].
        -- intros [(x & Hx & Hpx) Hfirst]. destruct i as [|i].
           { injection Hx as <-. congruence. }
           assert (Some k = Some i) as [= ->]; [|done].
           apply IH. split; [by exists x|].
           intros j y Hj Hy. apply (Hfirst (S j)); [lia | done].
      * split; [done|]. intros [(x & Hx & Hpx) Hfirst]. destruct i as [|i].
        { injection Hx as <-. congruence. }
        exfalso. assert (None = Some i) as [=]. apply IH.
        split; [by exists x|]. intros j y Hj Hy. apply (Hfirst (S j)); [lia | done].
Qed.

Lemma findIndex_is_Some {A} (p : A → bool) (l : list A) :
  is_Some (findIndex p l) ↔ ∃ x, x ∈ l ∧ p x = true.
Proof.
  induction l as [|a l IH]; simpl.
  - split; [by intros [? ?] | by intros (x & ?%elem_of_nil & _)].
  - destruct (p a) eqn:Ha.
    + split; [|by eexists]. intros _. exists a. split; [apply list_elem_of_here | done].
    + rewrite fmap_is_Some, IH. split.
      * intros (x & Hx & Hpx). exists x. split; [by apply list_elem_of_further | done].
      * intros (x & [->|Hx]%elem_of_cons & Hpx); [congruence|]. by exists x.
Qed.

Lemma getPortY_value (portIndex : nat) :
  (getPortY portIndex == inject_Z (Z.of_nat (56 + 22 * portIndex)))%Q.
Proof.
  unfold getPortY, HEADER_HEIGHT, HEADER_BORDER, BODY_PADDING_TOP, PORT_ROW_HEIGHT.
  assert (Hhalf : (inject_Z (Z.of_nat 22) / 2 == inject_Z 11)%Q) by reflexivity.
  rewrite Hhalf, <-inject_Z_plus. apply inject_Z_injective. lia.
Qed.

(** X11. Port rows lie inside the node: for a node with [rows] port rows (the
    larger of its input and output counts, at least one), the centre of row
    [i < rows] is [56 + 22 i] below the top of the node, consecutive centres
    are 22 apart, the row starts below the header and its padding, and it ends
    above the bottom padding of the node. *)
Theorem port_rows_inside_node (s : Tracker) (node : GraphNode.t) (i : nat) :
  i < Nat.max (Nat.max (length (GraphNode.inputs node)) (length (GraphNode.outputs node))) 1 →
  (getPortY i == inject_Z (Z.of_nat (56 + 22 * i)))%Q
  ∧ (getPortY (S i) - getPortY i == 22)%Q
  ∧ (45 <= getPortY i - 11)%Q
  ∧ (getPortY i + 11 + 8 <= inject_Z (Z.of_nat (getNodeHeight s node)))%Q.
Proof.
  intros Hi. rewrite !getPortY_value.
  split; [reflexivity|].
  assert (Hz : ∀ a b : nat, (inject_Z (Z.of_nat a) + inject_Z (Z.of_nat b)
                             == inject_Z (Z.of_nat (a + b)))%Q).
  { intros a b. rewrite <-inject_Z_plus. apply inject_Z_injective. lia. }
  split; [|split].
  - assert (E : (inject_Z (Z.of_nat (56 + 22 * S i))
                 == inject_Z (Z.of_nat (56 + 22 * i)) + inject_Z (Z.of_nat 22))%Q).
    { rewrite Hz. apply inject_Z_injective. lia. }
    rewrite E. change (inject_Z (Z.of_nat 22)) with 22%Q. ring.
  - assert (E : (inject_Z (Z.of_nat (56 + 22 * i))
                 == inject_Z (Z.of_nat (22 * i)) + 56)%Q).
    { change 56%Q with (inject_Z (Z.of_nat 56)). rewrite Hz.
      apply inject_Z_injective. lia. }
    assert (0 <= inject_Z (Z.of_nat (22 * i)))%Q.
    { change 0%Q with (inject_Z 0). rewrite <-Zle_Qle. lia. }
    lra.
  - change 11%Q with (inject_Z (Z.of_nat 11)). change 8%Q with (inject_Z (Z.of_nat 8)).
    rewrite !Hz, <-Zle_Qle.
    unfold getNodeHeight, HEADER_HEIGHT, HEADER_BORDER, BODY_PADDING_TOP,
      PORT_ROW_HEIGHT, EMBEDDED_COMPONENT_HEIGHT. lia.
Qed.

Lemma edgePathOf_resolvable (nodes : list GraphNode.t) (edge : GraphEdge.t) :
  is_Some (edgePathOf (nodeMapOf nodes) edge) ↔ resolvable nodes edge.
Proof.
  unfold edgePathOf, resolvable.
  destruct (nodeMapOf nodes !! GraphEdge.from_node edge) as [fromNode|];
    [|split; [by intros [? ?] | by intros (? & ? & ? & _)]].
  destruct (nodeMapOf nodes !! GraphEdge.to_node edge) as [toNode|];
    [|split; [by intros [? ?] | by intros (? & ? & _ & ? & _)]].
  pose proof (findIndex_is_Some (λ o, bool_decide (o = GraphEdge.from_port edge))
                (GraphNode.outputs fromNode)) as Hout.
  pose proof (findIndex_is_Some (λ p, bool_decide (Port.name p = GraphEdge.to_port edge))
                (GraphNode.inputs toNode)) as Hin.
  split.
  - intros Hsome. exists fromNode, toNode. split; [done|]. split; [done|].
    destruct (findIndex _ (GraphNode.outputs fromNode)) as [i|];
      [|by destruct Hsome].
    destruct (findIndex _ (GraphNode.inputs toNode)) as [j|];
      [|by destruct Hsome].
    destruct (proj1 Hout ltac:(by eexists)) as (o & Ho & ->%bool_decide_eq_true).
    destruct (proj1 Hin ltac:(by eexists)) as (p & Hp & <-%bool_decide_eq_true).
    split; [done|]. by apply list_elem_of_fmap_2.
  - intros (f & t & [= <-] & [= <-] & Hfrom & Hto).
    destruct (proj2 Hout) as [i ->].
    { exists (GraphEdge.from_port edge). split; [done|]. by apply bool_decide_eq_true. }
    apply list_elem_of_fmap in Hto as (p & Hname & Hp).
    destruct (proj2 Hin) as [j ->].
    { exists p. split; [done|]. by apply bool_decide_eq_true. }
    destruct (GraphEdge.is_scattered edge), (GraphEdge.is_gathered edge); by eexists.
Qed.

(** X12. The edge router draws exactly the edges it can resolve: an edge gets
    a path if and only if both of its ends are in the node map and both of its
    ports exist on them, every path is the path of one of the edges and copies
    that edge's id and flags, and the paths keep the order of the edges; an
    edge that names a missing node or port is dropped without a trace. *)
Theorem edge_paths_only_resolvable (nodes : list GraphNode.t) (edges : list GraphEdge.t) :
  (∀ edge, is_Some (edgePathOf (nodeMapOf nodes) edge) ↔ resolvable nodes edge)
  ∧ (∀ path, path ∈ edgePaths nodes edges ↔
       ∃ edge, edge ∈ edges ∧ edgePathOf (nodeMapOf nodes) edge = Some path)
  ∧ (∀ edge path, edgePathOf (nodeMapOf nodes) edge = Some path →
       EdgePath.id path = GraphEdge.id edge
       ∧ EdgePath.is_scattered path = GraphEdge.is_scattered edge
       ∧ EdgePath.is_gathered path = GraphEdge.is_gathered edge)
  ∧ EdgePath.id <$> edgePaths nodes edges `sublist_of` GraphEdge.id <$> edges
  ∧ (Forall (resolvable nodes) edges →
     EdgePath.id <$> edgePaths nodes edges = GraphEdge.id <$> edges).
Proof.
  assert (Hcopy : ∀ edge path, edgePathOf (nodeMapOf nodes) edge = Some path →
       EdgePath.id path = GraphEdge.id edge
       ∧ EdgePath.is_scattered path = GraphEdge.is_scattered edge
       ∧ EdgePath.is_gathered path = GraphEdge.is_gathered edge).
  { intros edge path. unfold edgePathOf.
    destruct (nodeMapOf nodes !! GraphEdge.from_node edge); [|done].
    destruct (nodeMapOf nodes !! GraphEdge.to_node edge); [|done].
    destruct (findIndex _ _); [|done]. destruct (findIndex _ _); [|done].
    destruct (GraphEdge.is_scattered edge) eqn:Hs, (GraphEdge.is_gathered edge) eqn:Hg;
      by intros [= <-]. }
  split; [intros edge; apply edgePathOf_resolvable|].
  split; [intros path; apply list_elem_of_omap|]. split; [done|]. split.
  - unfold edgePaths. induction edges as [|e edges IH]; [done|].
    cbn [omap list_omap]. rewrite fmap_cons.
    destruct (edgePathOf (nodeMapOf nodes) e) as [path|] eqn:He.
    + rewrite fmap_cons. destruct (Hcopy e path He) as [-> _]. by apply sublist_skip.
    + by apply sublist_cons.
  - unfold edgePaths. induction 1 as [|e edges He _ IH]; [done|].
    cbn [omap list_omap]. apply edgePathOf_resolvable in He as [path He].
    rewrite He, !fmap_cons, IH. by destruct (Hcopy e path He) as [-> _].
Qed.

(** X13. Every drawn edge joins its two port anchors: the right edge of the
    source node at the row of the first output named by the edge, and the left
    edge of the target node at the row of the first input named by it.  A
    plain edge is one curve from anchor to anchor and has no forks; a
    scattered edge (also when it is marked gathered as well) is a curve from
    the source anchor to a point 30 before the target, where three forks start
    that end 8 above, at and 8 below the target anchor; a gathered edge has
    three forks starting 8 above, at and 8 below the source anchor that meet
    30 after it, where the curve to the target anchor starts. *)
Theorem edge_drawing_connects_ports (nodeMap : gmap string GraphNode.t)
    (edge : GraphEdge.t) (path : EdgePath.t) :
  edgePathOf nodeMap edge = Some path →
  ∃ fromNode toNode i j,
    nodeMap !! GraphEdge.from_node edge = Some fromNode
    ∧ nodeMap !! GraphEdge.to_node edge = Some toNode
    ∧ GraphNode.outputs fromNode !! i = Some (GraphEdge.from_port edge)
    ∧ (∀ k o, k < i → GraphNode.outputs fromNode !! k = Some o →
         o ≠ GraphEdge.from_port edge)
    ∧ Port.name <$> (GraphNode.inputs toNode !! j) = Some (GraphEdge.to_port edge)
    ∧ (∀ k p, k < j → GraphNode.inputs toNode !! k = Some p →
         Port.name p ≠ GraphEdge.to_port edge)
    ∧ let x1 := (GraphNode.x fromNode + NODE_WIDTH)%Q in
      let y1 := (GraphNode.y fromNode + getPortY i)%Q in
      let x2 := GraphNode.x toNode in
      let y2 := (GraphNode.y toNode + getPortY j)%Q in
      match EdgePath.forkPaths path with
      | None =>
          EdgePath.is_scattered path = false
          ∧ EdgePath.is_gathered path = false
          ∧ startPoint (EdgePath.d path) = Some (x1, y1)
          ∧ endPoint (EdgePath.d path) = Some (x2, y2)
      | Some forks =>
          if EdgePath.is_scattered path then
            startPoint (EdgePath.d path) = Some (x1, y1)
            ∧ endPoint (EdgePath.d path) = Some ((x2 - 30)%Q, y2)
            ∧ startPoint <$> forks = replicate 3 (endPoint (EdgePath.d path))
            ∧ endPoint <$> forks
              = [Some (x2, (y2 - 8)%Q); Some (x2, y2); Some (x2, (y2 + 8)%Q)]
          else
            EdgePath.is_gathered path = true
            ∧ startPoint <$> forks
              = [Some (x1, (y1 - 8)%Q); Some (x1, y1); Some (x1, (y1 + 8)%Q)]
            ∧ endPoint <$> forks = replicate 3 (startPoint (EdgePath.d path))
            ∧ startPoint (EdgePath.d path) = Some ((x1 + 30)%Q, y1)
            ∧ endPoint (EdgePath.d path) = Some (x2, y2)
      end.
Proof.
  unfold edgePathOf. intros Hpath.
  destruct (nodeMap !! GraphEdge.from_node edge) as [fromNode|]; [|done].
  destruct (nodeMap !! GraphEdge.to_node edge) as [toNode|]; [|done].
  destruct (findIndex _ (GraphNode.outputs fromNode)) as [i|] eqn:Hi; [|done].
  destruct (findIndex _ (GraphNode.inputs toNode)) as [j|] eqn:Hj; [|done].
  apply findIndex_Some in Hi as [(o & Ho & ->%bool_decide_eq_true) Hfirst].
  apply findIndex_Some in Hj as [(p & Hp & Hname%bool_decide_eq_true) Hfirst'].
  exists fromNode, toNode, i, j.
  split; [done|]. split; [done|]. split; [done|]. split.
  { intros k o Hk Hko ->. apply (Hfirst k _ Hk) in Hko.
    by apply bool_decide_eq_false in Hko. }
  split; [by rewrite Hp; simpl; rewrite Hname|]. split.
  { intros k q Hk Hkq Hq. apply (Hfirst' k _ Hk) in Hkq.
    by apply bool_decide_eq_false in Hkq. }
  destruct (GraphEdge.is_scattered edge), (GraphEdge.is_gathered edge);
    injection Hpath as <-; simpl; repeat split.
Qed.

(** ** Panning and the zoom buttons *)

Section PanAndZoom.
Local Open Scope Q_scope.

(** X14. Dragging moves the canvas with the pointer: after a press of the main
    button on the canvas background and a move of the pointer, the offset has
    changed by the distance the pointer travelled, the scale is unchanged, and
    the canvas point under the pointer is the one that was grabbed.  A press
    with another button or on a node starts nothing; without a press, and
    after the release, pointer moves leave the viewport as it is. *)
Theorem drag_keeps_grabbed_point (v : Viewport) (cx cy cx' cy' left top : Q) :
  let down := handleMouseDown 0 true cx cy v in
  let moved := handleMouseMove cx' cy' down in
  isPanning down = true
  ∧ Transform.x (transform moved) == Transform.x (transform v) + (cx' - cx)
  ∧ Transform.y (transform moved) == Transform.y (transform v) + (cy' - cy)
  ∧ Transform.scale (transform moved) = Transform.scale (transform v)
  ∧ (canvasPointAt (transform moved) (cx' - left) (cy' - top)).1
    == (canvasPointAt (transform v) (cx - left) (cy - top)).1
  ∧ (canvasPointAt (transform moved) (cx' - left) (cy' - top)).2
    == (canvasPointAt (transform v) (cx - left) (cy - top)).2
  ∧ (∀ button onCanvas, button ≠ 0%Z ∨ onCanvas = false →
       handleMouseDown button onCanvas cx cy v = v)
  ∧ (isPanning v = false → handleMouseMove cx' cy' v = v)
  ∧ handleMouseMove cx cy (handleMouseUp moved) = handleMouseUp moved.
Proof.
  intros down moved. unfold moved, down, handleMouseDown, handleMouseMove, handleMouseUp,
    canvasPointAt. simpl.
  split; [done|]. split; [ring|]. split; [ring|]. split; [done|].
  split; [apply Qdiv_comp; [ring | reflexivity]|].
  split; [apply Qdiv_comp; [ring | reflexivity]|].
  split; [|split; [by intros -> | done]].
  intros button onCanvas [Hb| ->].
  - apply Z.eqb_neq in Hb. by rewrite Hb.
  - by rewrite andb_false_r.
Qed.

(** X15. The zoom buttons change the scale only, never the offset, and undo
    each other where neither is clamped: zooming in and then out (or out and
    then in) returns to the scale when the scale times 1.2 is at most 3
    (divided by 1.2 is at least 0.2); at scale 3 zooming in, and at scale 0.2
    zooming out, changes nothing. *)
Theorem zoom_buttons_inverse (t : Transform.t) :
  Transform.x (zoomIn t) = Transform.x t
  ∧ Transform.y (zoomIn t) = Transform.y t
  ∧ Transform.x (zoomOut t) = Transform.x t
  ∧ Transform.y (zoomOut t) = Transform.y t
  ∧ (0.2 <= Transform.scale t → Transform.scale t * 1.2 <= 3 →
     Transform.scale (zoomOut (zoomIn t)) == Transform.scale t)
  ∧ (Transform.scale t <= 3 → 0.2 <= Transform.scale t / 1.2 →
     Transform.scale (zoomIn (zoomOut t)) == Transform.scale t)
  ∧ (Transform.scale t == 3 → Transform.scale (zoomIn t) == 3)
  ∧ (Transform.scale t == 0.2 → Transform.scale (zoomOut t) == 0.2).
Proof.
  unfold zoomIn, zoomOut. cbn [Transform.x Transform.y Transform.scale].
  repeat split.
  - intros Hlo Hhi.
    rewrite (Q.min_r 3 (Transform.scale t * 1.2)) by done.
    assert (E : Transform.scale t * 1.2 / 1.2 == Transform.scale t) by (field; lra).
    rewrite E. apply Q.max_r. done.
  - intros Hhi Hlo.
    rewrite (Q.max_r 0.2 (Transform.scale t / 1.2)) by done.
    assert (E : Transform.scale t / 1.2 * 1.2 == Transform.scale t) by (field; lra).
    rewrite E. apply Q.min_r. done.
  - intros E. apply Q.min_l. lra.
  - intros E. apply Q.max_l. apply Qle_shift_div_r; lra.
Qed.

End PanAndZoom.

(** ** Fitting the content *)

Section FitPlacement.
Local Open Scope Q_scope.

(** The transform [zoomToFit] writes, in terms of the bounds it computed. *)
Lemma zoomToFit_computed (s : Tracker) (nodes : list GraphNode.t) (rect : Rect.t)
    (t : Transform.t) (a b c d : Q) :
  nodes ≠ [] →
  boundsOf s nodes = Bounds.mk (Some a) (Some b) (Some c) (Some d) →
  let newScale := Qmin (Qmin ((Rect.width rect - 40 * 2) / (c - a))
                             ((Rect.height rect - 40 * 2) / (d - b))) 1.5 in
  zoomToFit s nodes (Some rect) t
  = Transform.mk (Rect.width rect / 2 - (a + c) / 2 * newScale)
      (Rect.height rect / 2 - (b + d) / 2 * newScale)
      (Qmax 0.2 newScale).
Proof.
  intros Hne Hb. unfold zoomToFit. destruct nodes; [done|]. by rewrite Hb.
Qed.

(** X17. Fitting shows everything: for a non-empty node list and a bound
    canvas element, when the scale that fits is not below the minimum 0.2 (so
    the clamp does not raise it), the centre of the bounding box of the nodes
    is drawn at the centre of the canvas element, and the whole bounding box
    is drawn inside it with a margin of at least 40 on every side. *)
Theorem fit_centers_and_contains (s : Tracker) (nodes : list GraphNode.t)
    (rect : Rect.t) (t : Transform.t) (minX minY maxX maxY : Q) :
  nodes ≠ [] →
  boundingBox s nodes minX minY maxX maxY →
  0.2 <= (Rect.width rect - 80) / (maxX - minX) →
  0.2 <= (Rect.height rect - 80) / (maxY - minY) →
  let t' := zoomToFit s nodes (Some rect) t in
  let onScreenX x := x * Transform.scale t' + Transform.x t' in
  let onScreenY y := y * Transform.scale t' + Transform.y t' in
  onScreenX ((minX + maxX) / 2) == Rect.width rect / 2
  ∧ onScreenY ((minY + maxY) / 2) == Rect.height rect / 2
  ∧ 40 <= onScreenX minX
  ∧ onScreenX maxX <= Rect.width rect - 40
  ∧ 40 <= onScreenY minY
  ∧ onScreenY maxY <= Rect.height rect - 40.
Proof.
  intros Hne Hbox Hfx Hfy t' onScreenX onScreenY.
  destruct (boundingBox_size _ _ _ _ _ _ Hbox) as [Hw Hh].
  destruct (boundsOf_boundingBox s nodes Hne) as (a & b & c & d & Hb & Hbox').
  destruct Hbox as (Hx & Hy & Hx' & Hy'). destruct Hbox' as (Ha & Hb' & Hc & Hd).
  pose proof (least_unique _ _ _ _ Ha Hx) as Ea.
  pose proof (least_unique _ _ _ _ Hb' Hy) as Eb.
  pose proof (greatest_unique _ _ _ _ Hc Hx') as Ec.
  pose proof (greatest_unique _ _ _ _ Hd Hy') as Ed.
  unfold onScreenX, onScreenY, t'.
  rewrite (zoomToFit_computed s nodes rect t a b c d Hne Hb).
  cbn [Transform.x Transform.y Transform.scale].
  set (fitX := (Rect.width rect - 40 * 2) / (c - a)).
  set (fitY := (Rect.height rect - 40 * 2) / (d - b)).
  set (newScale := Qmin (Qmin fitX fitY) 1.5).
  assert (HfitX : fitX == (Rect.width rect - 80) / (maxX - minX)).
  { unfold fitX. apply Qdiv_comp; lra. }
  assert (HfitY : fitY == (Rect.height rect - 80) / (maxY - minY)).
  { unfold fitY. apply Qdiv_comp; lra. }
  assert (Hmin : 0.2 <= newScale).
  { unfold newScale. apply Q.min_glb; [apply Q.min_glb|]; lra. }
  assert (Hscale : Qmax 0.2 newScale == newScale) by by apply Q.max_r.
  assert (HleX : newScale * (maxX - minX) <= Rect.width rect - 80).
  { assert (H1 : newScale <= fitX).
    { pose proof (Q.le_min_l (Qmin fitX fitY) 1.5).
      pose proof (Q.le_min_l fitX fitY). unfold newScale. lra. }
    rewrite HfitX in H1.
    apply (Qmult_le_compat_r _ _ (maxX - minX)) in H1; [|lra].
    assert (E : (Rect.width rect - 80) / (maxX - minX) * (maxX - minX)
                == Rect.width rect - 80) by (field; lra).
    by rewrite E in H1. }
  assert (HleY : newScale * (maxY - minY) <= Rect.height rect - 80).
  { assert (H1 : newScale <= fitY).
    { pose proof (Q.le_min_l (Qmin fitX fitY) 1.5).
      pose proof (Q.le_min_r fitX fitY). unfold newScale. lra. }
    rewrite HfitY in H1.
    apply (Qmult_le_compat_r _ _ (maxY - minY)) in H1; [|lra].
    assert (E : (Rect.height rect - 80) / (maxY - minY) * (maxY - minY)
                == Rect.height rect - 80) by (field; lra).
    by rewrite E in H1. }
  rewrite Hscale, Ea, Eb, Ec, Ed.
  assert (Ex : newScale * (maxX - minX) == maxX * newScale - minX * newScale) by ring.
  assert (Ey : newScale * (maxY - minY) == maxY * newScale - minY * newScale) by ring.
  rewrite Ex in HleX. rewrite Ey in HleY.
  set (px := minX * newScale) in *. set (qx := maxX * newScale) in *.
  set (py := minY * newScale) in *. set (qy := maxY * newScale) in *.
  assert (Cx : (minX + maxX) / 2 * newScale == (px + qx) / 2) by (unfold px, qx; field).
  assert (Cy : (minY + maxY) / 2 * newScale == (py + qy) / 2) by (unfold py, qy; field).
  rewrite Cx, Cy.
  assert (Hhalf : ∀ q, q / 2 == q * 0.5) by (intros q; field).
  rewrite !Hhalf.
  repeat split; lra.
Qed.

End FitPlacement.

(** ** Runs on a stale snapshot *)

Lemma deriveNodes_again (v : option CanvasData.t) (held : list GraphNode.t) :
  (deriveNodes v (deriveNodes v held).2).1 = (deriveNodes v held).2.
Proof.
  unfold deriveNodes. destruct (v ≫= CanvasData.nodes) as [l|]; [|done].
  by destruct (0 <? length l).
Qed.

Lemma deriveEdges_again (v : option CanvasData.t) (held : list GraphEdge.t) :
  (deriveEdges v (deriveEdges v held).2).1 = (deriveEdges v held).2.
Proof.
  unfold deriveEdges. destruct (v ≫= CanvasData.edges) as [l|]; [|done].
  by destruct (0 <? length l).
Qed.

Lemma receiveValue_graph (v : option CanvasData.t) (c : Canvas) :
  nodesOf (receiveValue v c) = (deriveNodes v (lastValidNodes c)).2
  ∧ lastValidNodes (receiveValue v c) = (deriveNodes v (lastValidNodes c)).2
  ∧ edgesOf (receiveValue v c) = (deriveEdges v (lastValidEdges c)).2
  ∧ lastValidEdges (receiveValue v c) = (deriveEdges v (lastValidEdges c)).2.
Proof.
  unfold nodesOf, edgesOf, receiveValue. simpl.
  by rewrite deriveNodes_again, deriveEdges_again.
Qed.

Lemma receive_stale_graph (stale : list (option CanvasData.t)) (c : Canvas) :
  Forall lacksNodes stale → Forall lacksEdges stale →
  nodesOf c = lastValidNodes c → edgesOf c = lastValidEdges c →
  nodesOf (runEvents (EvValue <$> stale) c) = lastValidNodes c
  ∧ edgesOf (runEvents (EvValue <$> stale) c) = lastValidEdges c.
Proof.
  revert c. induction stale as [|w stale IH]; intros c Hn He Hcn Hce; [done|].
  apply Forall_cons in Hn as [Hw Hn]. apply Forall_cons in He as [Hw' He].
  rewrite fmap_cons. cbn [runEvents fold_left canvasStep].
  destruct (receiveValue_graph w c) as (E1 & E2 & E3 & E4).
  rewrite deriveNodes_stale in E1, E2 by done.
  rewrite deriveEdges_stale in E3, E4 by done. cbn [snd] in E1, E2, E3, E4.
  destruct (IH (receiveValue w c) Hn He) as [IH1 IH2]; [congruence..|].
  unfold runEvents in IH1, IH2. by rewrite IH1, IH2, E2, E4.
Qed.

(** X18. A run triggered while the current snapshot is stale works on the
    last known graph: after a value with non-empty node and edge lists and
    any number of values lacking both, the node and edge lists in use are
    those of the first value, and the nodes recorded for a run are the
    ancestors of the target in that graph and the target, less the nodes with
    a recorded result. *)
Theorem run_uses_last_known_graph (c : Canvas) (v : option CanvasData.t)
    (ns : list GraphNode.t) (es : list GraphEdge.t)
    (stale : list (option CanvasData.t)) (target now rand : string) :
  v ≫= CanvasData.nodes = Some ns → ns ≠ [] →
  v ≫= CanvasData.edges = Some es → es ≠ [] →
  Forall lacksNodes stale → Forall lacksEdges stale →
  let c' := runEvents (EvValue v :: (EvValue <$> stale)) c in
  nodesOf c' = ns
  ∧ edgesOf c' = es
  ∧ runIdToNodes (tracker (runToNode target now rand c')) !! mintRunId target now rand
    = Some (List.filter (lacksResults (nodeResults (tracker c')))
              (getAncestors ns es target ++ [target])).
Proof.
  intros Hns Hne Hes Hee Hsn Hse c'.
  assert (Hgraph : nodesOf c' = ns ∧ edgesOf c' = es).
  { unfold c'. cbn [runEvents fold_left canvasStep].
    destruct (receiveValue_graph v c) as (E1 & E2 & E3 & E4).
    rewrite (deriveNodes_fresh v _ ns) in E1, E2 by done.
    rewrite (deriveEdges_fresh v _ es) in E3, E4 by done.
    cbn [snd] in E1, E2, E3, E4.
    destruct (receive_stale_graph stale (receiveValue v c) Hsn Hse) as [H1 H2];
      [congruence..|].
    unfold runEvents in H1, H2. by rewrite H1, H2, E2, E4. }
  destruct Hgraph as [Hn He]. split; [done|]. split; [done|].
  rewrite runToNode_tracker, handleRunToNode_tracker. simpl.
  rewrite lookup_insert_eq. unfold nodesToRunOf. by rewrite Hn, He.
Qed.

(** ** The further properties at sample inputs *)

Lemma navigation_matches_buttons_witness :
  let s := deliver [Sample.completion "r1" "C" "first"; Sample.completion "r2" "C" "second"]
             initialTracker in
  default 0 (selectedResultIndex (prevResult "C" s) !! "C") = 0
  ∧ selectedResultIndex (prevResult "C" s) !! "B" = selectedResultIndex s !! "B".
Proof.
  intros s.
  destruct (navigation_matches_buttons s "C") as (_ & _ & Hprev & _ & Hother & _).
  split; [rewrite Hprev; by vm_compute|]. by apply Hother.
Defined.

Lemma navigation_round_trip_witness :
  let s := deliver [Sample.completion "r1" "C" "first"; Sample.completion "r2" "C" "second"]
             initialTracker in
  default 0 (selectedResultIndex (nextResult "C" (prevResult "C" s)) !! "C") = 1.
Proof.
  intros s.
  assert (Hcur : default 0 (selectedResultIndex s !! "C") = 1) by by vm_compute.
  assert (Hcount : getResultCount s "C" = 2) by by vm_compute.
  transitivity (default 0 (selectedResultIndex s !! "C")); [|exact Hcur].
  apply (proj1 (navigation_round_trip s "C")); rewrite Hcur, ?Hcount; lia.
Defined.

Lemma selection_always_valid_witness :
  let events := [EvValue (Some (Sample.completion "r1" "C" "first"))] in
  let s := tracker (runEvents events initialCanvas) in
  ∃ idx snap,
    selectedResultIndex s !! "C" = Some idx
    ∧ default [] (nodeResults s !! "C") !! idx = Some snap
    ∧ getSelectedResults s (Sample.node "C" "C" false) = snap.
Proof.
  intros events s.
  destruct (selection_always_valid events) as (_ & _ & H).
  destruct (H (Sample.node "C" "C" false)
              [[GradioComponentData.mk "textbox" "text" "out" [] (Some "first")]])
    as (idx & snap & Hidx & Hsnap & _ & Hsel).
  - by vm_compute.
  - exists idx, snap. split; [exact Hidx|]. split; [|exact Hsel].
    rewrite <-Hsnap. by vm_compute.
Defined.

Lemma run_record_retired_witness :
  let runId := mintRunId "C" "1" "x" in
  let s := tracker (handleRunToNode "C" runId Sample.chainCanvas).1 in
  let ds := [Sample.completion runId "C" "c"; Sample.completion runId "B" "b"] in
  runIdToNodes (deliver ds s) !! runId = None
  ∧ timers (deliver ds s) = [(runId, ["B"; "C"])].
Proof.
  intros runId s ds.
  destruct (run_record_retired s runId ["B"; "C"] ds) as (H & _).
  - by vm_compute.
  - intros m. unfold s. rewrite handleRunToNode_tracker. simpl. apply not_elem_of_empty.
  - repeat constructor.
  - destruct H as (Hrec & Htimers & _).
    + assert (E : completedNodes ds = ["C"; "B"]) by by vm_compute.
      rewrite E. split; [|done].
      repeat constructor; compute_done.
    + split; [exact Hrec|]. rewrite Htimers. by vm_compute.
Defined.

Lemma input_change_round_trip_witness :
  let c' := canvasStep Sample.chainCanvas (EvInputChange "A" "in" "hello") in
  getComponentValue (inputValues c') (Sample.node "A" "A" true)
    (GradioComponentData.mk "textbox" "text" "in" [] (Some "shown before")) = "hello".
Proof.
  intros c'.
  apply (proj1 (input_change_round_trip Sample.chainCanvas "A" "in" "hello"));
    reflexivity.
Defined.

Lemma visible_map_items_witness :
  let items := (λ i, MapItem.mk i "item" None false None) <$> seq 0 5 in
  length (getVisibleMapItems ∅ "M" (Some items)) = 3
  ∧ getVisibleMapItems (toggleMapExpand "M" ∅) "M" (Some items) = items.
Proof.
  intros items.
  destruct (visible_map_items ∅ "M" (Some items)) as (_ & Hlen & Hall & _).
  split; [rewrite Hlen; by vm_compute|]. apply Hall. by vm_compute.
Defined.

Lemma nodeMap_agrees_with_find_witness :
  nodeMapOf Sample.chainNodes !! GraphEdge.from_node (Sample.edge "B" "C")
  = findSource Sample.chainNodes (Sample.edge "B" "C").
Proof.
  apply (proj2 (nodeMap_agrees_with_find Sample.chainNodes)). compute_done.
Defined.

Lemma port_rows_inside_node_witness :
  (getPortY 0 + 11 + 8
   <= inject_Z (Z.of_nat (getNodeHeight initialTracker (Sample.node "A" "A" false))))%Q.
Proof.
  apply (port_rows_inside_node initialTracker (Sample.node "A" "A" false) 0).
  simpl. lia.
Defined.

Lemma edge_paths_only_resolvable_witness :
  resolvable Sample.chainNodes (Sample.edge "A" "B")
  ∧ EdgePath.id <$> edgePaths Sample.chainNodes (Sample.chainEdges ++ [Sample.edge "Z" "C"])
    = ["A->B"; "B->C"].
Proof.
  split.
  - apply (proj1 (edge_paths_only_resolvable Sample.chainNodes Sample.chainEdges)).
    vm_compute. by eexists.
  - by vm_compute.
Defined.

Lemma edge_drawing_connects_ports_witness :
  ∃ path fromNode toNode,
    edgePathOf (nodeMapOf Sample.chainNodes) (Sample.edge "A" "B") = Some path
    ∧ nodeMapOf Sample.chainNodes !! "A" = Some fromNode
    ∧ nodeMapOf Sample.chainNodes !! "B" = Some toNode.
Proof.
  assert (H : is_Some (edgePathOf (nodeMapOf Sample.chainNodes) (Sample.edge "A" "B")))
    by (vm_compute; by eexists).
  destruct H as [path Hpath].
  destruct (edge_drawing_connects_ports _ _ _ Hpath)
    as (fromNode & toNode & i & j & Hfrom & Hto & _).
  by exists path, fromNode, toNode.
Defined.

Lemma drag_keeps_grabbed_point_witness :
  handleMouseMove 10 20 initialViewport = initialViewport
  ∧ handleMouseDown 2 true 10 20 initialViewport = initialViewport.
Proof.
  destruct (drag_keeps_grabbed_point initialViewport 10 20 10 20 0 0)
    as (_ & _ & _ & _ & _ & _ & Hdown & Hmove & _).
  split; [by apply Hmove|]. apply Hdown. by left.
Defined.

Lemma zoom_buttons_inverse_witness :
  (Transform.scale (zoomOut (zoomIn initialTransform)) == Transform.scale initialTransform)%Q.
Proof.
  destruct (zoom_buttons_inverse initialTransform) as (_ & _ & _ & _ & H & _).
  apply H; by vm_compute.
Defined.

Lemma fit_centers_and_contains_witness :
  let t' := zoomToFit initialTracker [Sample.node "A" "A" false]
              (Some (Rect.mk 0 0 440 150)) initialTransform in
  (40 <= 0 * Transform.scale t' + Transform.x t')%Q
  ∧ (220 * Transform.scale t' + Transform.x t' <= 440 - 40)%Q.
Proof.
  intros t'.
  destruct (fit_centers_and_contains initialTracker [Sample.node "A" "A" false]
              (Rect.mk 0 0 440 150) initialTransform 0 0 220 75)
    as (_ & _ & Hleft & Hright & _).
  - discriminate.
  - apply sample_boundingBox.
  - by vm_compute.
  - by vm_compute.
  - split; [exact Hleft | exact Hright].
Defined.

Lemma run_uses_last_known_graph_witness :
  let first := Some (Sample.snapshot Sample.chainNodes Sample.chainEdges) in
  let c' := runEvents [EvValue first; EvValue (Some (Sample.snapshot [] []))] initialCanvas in
  nodesOf c' = Sample.chainNodes
  ∧ runIdToNodes (tracker (runToNode "C" "1" "x" c')) !! mintRunId "C" "1" "x"
    = Some ["B"; "C"].
Proof.
  intros first c'.
  destruct (run_uses_last_known_graph initialCanvas first Sample.chainNodes
              Sample.chainEdges [Some (Sample.snapshot [] [])] "C" "1" "x")
    as (Hn & _ & Hrun); try done.
  - constructor; [by right | constructor].
  - constructor; [by right | constructor].
Defined.
